(** * Dependency monitor: a model of [check-dependencies.js]

    The repository holds two revisions of one script.  The earlier one
    (source lines 1-284) looks for outdated npm packages only; the later one
    (lines 285-707) also reads the open Dependabot alerts of each repository.
    Both share, word for word, the registry client [getNpmPackageInfo] and
    the comparator [checkOutdatedPackages]; they differ in [githubRequest],
    [analyzeWithClaude], [sendEmail] and [main].  The shared functions are
    modelled once, the others in the modules [Basic] and [Security].

    JavaScript values that come out of [JSON.parse] are modelled by the type
    [JSON]; [undefined] is the missing value of [Value := option JSON].
    A string is held as its UTF-8 text.  Promises, exceptions and
    [process.exit] are modelled by [Completion]; console lines, outbound
    requests and mails are recorded in a trace. *)

From Stdlib Require Import String Ascii DecimalString ssreflect.
From stdpp Require Import base list strings gmap.

Set Warnings "-register-all,-rewrite-rw,-clear-no-such-hyp".

(** ** Values *)

(** What [JSON.parse] returns.  Numbers are kept as integers: the script
    only looks at whether a number is zero (truthiness) and at the fact that
    it is neither a string nor an object.  [JObj] lists the properties of
    the parsed object in creation order. *)
Inductive JSON : Type :=
| JNull
| JBool (b : bool)
| JNum (n : Z)
| JStr (s : string)
| JArr (items : list JSON)
| JObj (props : list (string * JSON)).

(** A JavaScript value read by the script: [None] is [undefined]. *)
Definition Value : Type := option JSON.
Definition undefined : Value := None.

(** The property list of an ordinary object, in creation order. *)
Definition Props : Type := list (string * JSON).

(** ** Strings *)

(** The strings of the script are sequences of UTF-16 code units; the model
    holds their UTF-8 text.  [code_points] reads the text back: one, two,
    three or four bytes to a character (a byte outside a well-formed
    sequence is read as a character of its own).  [code_units] gives the
    code units: the character itself in the basic plane, a surrogate pair
    above it. *)
Definition is_continuation (b : N) : bool := ((128 <=? b) && (b <? 192))%N.

Fixpoint code_points (s : string) : list N :=
  match s with
  | EmptyString => []
  | String a0 s1 =>
      let b0 := N_of_ascii a0 in
      match s1 with
      | EmptyString => [b0]
      | String a1 s2 =>
          let b1 := N_of_ascii a1 in
          if ((192 <=? b0) && (b0 <? 224))%N && is_continuation b1 then
            ((b0 - 192) * 64 + (b1 - 128))%N :: code_points s2
          else
            match s2 with
            | EmptyString => b0 :: code_points s1
            | String a2 s3 =>
                let b2 := N_of_ascii a2 in
                if ((224 <=? b0) && (b0 <? 240))%N && is_continuation b1
                   && is_continuation b2 then
                  ((b0 - 224) * 4096 + (b1 - 128) * 64 + (b2 - 128))%N
                    :: code_points s3
                else
                  match s3 with
                  | EmptyString => b0 :: code_points s1
                  | String a3 s4 =>
                      let b3 := N_of_ascii a3 in
                      if ((240 <=? b0) && (b0 <? 248))%N && is_continuation b1
                         && is_continuation b2 && is_continuation b3 then
                        ((b0 - 240) * 262144 + (b1 - 128) * 4096
                         + (b2 - 128) * 64 + (b3 - 128))%N :: code_points s4
                      else b0 :: code_points s1
                  end
            end
      end
  end.

Definition units_of_point (p : N) : list N :=
  if (p <? 65536)%N then [p]
  else [(55296 + (p - 65536) / 1024)%N; (56320 + (p - 65536) mod 1024)%N].

Definition code_units (s : string) : list N :=
  flat_map units_of_point (code_points s).

(** The text of the string that is the one code unit [u]. *)
Definition unit_string (u : N) : string :=
  if (u <? 128)%N then String (ascii_of_N u) EmptyString
  else if (u <? 2048)%N then
    String (ascii_of_N (192 + u / 64))
      (String (ascii_of_N (128 + u mod 64)) EmptyString)
  else
    String (ascii_of_N (224 + u / 4096))
      (String (ascii_of_N (128 + (u / 64) mod 64))
         (String (ascii_of_N (128 + u mod 64)) EmptyString)).

(** [https.get(options, ...)] throws a [TypeError] before anything is sent
    when [options.path] has a code unit outside U+0021..U+00FF, and when
    the value of a header has a code unit that is neither a tab nor in
    U+0020..U+007E nor in U+0080..U+00FF. *)
Definition request_path_ok (path : string) : bool :=
  forallb (λ u, (33 <=? u) && (u <=? 255))%N (code_units path).

Definition header_value_ok (v : string) : bool :=
  forallb (λ u, (u =? 9) || ((32 <=? u) && (u <=? 126))
                || ((128 <=? u) && (u <=? 255)))%N (code_units v).

(** ** Truth and equality *)

(** [ToBoolean]. *)
Definition truthy (j : JSON) : bool :=
  match j with
  | JNull => false
  | JBool b => b
  | JNum n => negb (n =? 0)%Z
  | JStr s => negb (String.eqb s "")
  | JArr _ | JObj _ => true
  end.

(** [v === s] for a string [s]. *)
Definition strict_eq_string (v : Value) (s : string) : bool :=
  match v with
  | Some (JStr t) => String.eqb t s
  | _ => false
  end.

(** [typeof v === "string"]: the values on which [.replace] and
    [.toUpperCase] exist.  On every other value the method call throws a
    [TypeError]. *)
Definition is_string (v : Value) : bool :=
  match v with
  | Some (JStr _) => true
  | _ => false
  end.

(** [String(n)] for a length or a count. *)
Definition Number_toString (n : nat) : string :=
  NilZero.string_of_uint (Nat.to_uint n).

(** ** Property lists *)

(** First binding of [k]. *)
Fixpoint assoc (k : string) (o : Props) : Value :=
  match o with
  | [] => undefined
  | (k', v) :: o' => if String.eqb k k' then Some v else assoc k o'
  end.

(** [CreateDataProperty]: an existing property keeps its place and takes
    the new value, a new one goes last. *)
Fixpoint put (k : string) (v : JSON) (o : Props) : Props :=
  match o with
  | [] => [(k, v)]
  | (k', v') :: o' =>
      if String.eqb k k' then (k, v) :: o' else (k', v') :: put k v o'
  end.

Definition digit_value (a : ascii) : option N :=
  let n := N_of_ascii a in
  if ((48 <=? n) && (n <=? 57))%N then Some (n - 48)%N else None.

Fixpoint digits_value (s : string) (acc : N) : option N :=
  match s with
  | EmptyString => Some acc
  | String a s' =>
      match digit_value a with
      | Some d => digits_value s' (acc * 10 + d)%N
      | None => None
      end
  end.

(** The array index a property name denotes, if any: a canonical decimal
    numeral below 2^32 - 1. *)
Definition array_index (k : string) : option N :=
  match k with
  | EmptyString => None
  | String "0" EmptyString => Some 0%N
  | String "0" _ => None
  | _ =>
      match digits_value k 0 with
      | Some n => if (n <? 4294967295)%N then Some n else None
      | None => None
      end
  end.

Definition is_index_key (e : string * JSON) : bool :=
  match array_index e.1 with Some _ => true | None => false end.

Fixpoint insert_by_index (i : N) (e : string * JSON)
    (l : list (N * (string * JSON))) : list (N * (string * JSON)) :=
  match l with
  | [] => [(i, e)]
  | (j, e') :: l' =>
      if (i <=? j)%N then (i, e) :: l else (j, e') :: insert_by_index i e l'
  end.

Fixpoint index_entries (o : Props) : list (N * (string * JSON)) :=
  match o with
  | [] => []
  | e :: o' =>
      match array_index e.1 with
      | Some i => insert_by_index i e (index_entries o')
      | None => index_entries o'
      end
  end.

(** [OrdinaryOwnPropertyKeys]: array-index names in ascending numeric
    order, then the other names in creation order.  This is the order of
    [Object.entries], [Object.keys] and of the spread syntax. *)
Definition own_property_order (o : Props) : Props :=
  (index_entries o).*2 ++ filter (λ e, is_index_key e = false) o.

(** The own enumerable properties of a value, as the spread syntax
    [{...v}] copies them.  [undefined], [null], booleans and numbers have
    none; an array has its items under their indices; a string has its
    code units under their indices. *)
Definition own_entries (v : Value) : Props :=
  match v with
  | Some (JObj o) => own_property_order o
  | Some (JArr xs) => imap (λ i x, (Number_toString i, x)) xs
  | Some (JStr s) =>
      imap (λ i u, (Number_toString i, JStr (unit_string u))) (code_units s)
  | _ => []
  end.

Definition put_entry (o : Props) (e : string * JSON) : Props := put e.1 e.2 o.

(** [{...a, ...b}]: the properties of [a], then those of [b], are created
    on a fresh object. *)
Definition object_spread (a b : Value) : Props :=
  foldl put_entry (foldl put_entry [] (own_entries a)) (own_entries b).

(** [Object.entries(o)] and [Object.keys(o)] of an ordinary object. *)
Definition Object_entries (o : Props) : Props := own_property_order o.
Definition Object_keys (o : Props) : list string := (own_property_order o).*1.

(** Reading a data property [v.k] where [k] is one of the fixed names the
    script uses (none of them is an index, [length] or a method).  [None]
    is the [TypeError] of reading a property of [undefined] or [null]. *)
Definition get_field (v : Value) (k : string) : option Value :=
  match v with
  | None | Some JNull => None
  | Some (JObj o) => Some (assoc k o)
  | Some _ => Some undefined
  end.

(** [v[0]]. *)
Definition get_first (v : Value) : option Value :=
  match v with
  | None | Some JNull => None
  | Some (JObj o) => Some (assoc "0" o)
  | Some (JArr xs) => Some (head xs)
  | Some (JStr s) => Some (JStr ∘ unit_string <$> head (code_units s))
  | Some _ => Some undefined
  end.

(** [currentVersion.replace(/^[\^~]/, "")]: the pattern is anchored at the
    start and is not global, so at most the first character goes. *)
Definition is_range_marker (c : ascii) : bool :=
  (Ascii.eqb c "^" || Ascii.eqb c "~")%bool.

Definition strip_range_marker (s : string) : string :=
  match s with
  | String c rest => if is_range_marker c then rest else s
  | EmptyString => EmptyString
  end.

(** Whether a string begins with a caret or a tilde. *)
Definition starts_with_marker (s : string) : bool :=
  match s with
  | String c _ => is_range_marker c
  | EmptyString => false
  end.

(** ** Data of a run *)

(** What the registry client resolves to on success. *)
Record Info := {
  info_latest : Value;
  info_description : Value;
  info_homepage : Value;
}.

(** One entry of [outdated]. *)
Record DependencyRecord := {
  package : string;
  current : string;
  latest : Value;
  description : Value;
}.

(** What [checkOutdatedPackages] returns. *)
Record OutdatedReport := {
  repo : string;
  outdated : list DependencyRecord;
  totalDependencies : nat;
}.

(** One entry of [securityAlerts] (later revision). *)
Record Alert := {
  alert_package : Value;
  severity : Value;
  summary : Value;
  alert_description : Value;
  cve : Value;
  vulnerableVersionRange : Value;
  firstPatchedVersion : Value;
  ghsaId : Value;
  url : Value;
}.

(** An entry of [results] in the later revision:
    [{...outdated, securityAlerts}]. *)
Record RepositoryReport := {
  report : OutdatedReport;
  securityAlerts : list Alert;
}.

Inductive Error :=
| RequestError                     (* the 'error' event of a request *)
| GitHubApiError (statusCode : nat)
| ClaudeApiError (statusCode : nat)
| SyntaxError                      (* JSON.parse *)
| TypeError
| SendMailError.

(** The prompt sent to the completion endpoint is a function of [results];
    the text itself is not modelled. *)
Inductive Prompt :=
| OutdatedPrompt (results : list OutdatedReport)
| SecurityPrompt (results : list RepositoryReport).

Inductive MailBody :=
| ShortNotice
| UpdateReport (analysis : Value) (results : list OutdatedReport)
| FullReport (analysis : string) (results : list RepositoryReport).

Record Mail := {
  mail_from : option string;
  mail_to : option string;
  subject : string;
  body : MailBody;
}.

Inductive LogLine :=
| CheckingEnvironment
| TokenNotSet
| Starting
| Checking (r : string)
| CheckingAlerts (r : string)
| FoundAlerts (n : nat)
| FoundOutdated (n : nat)
| CouldNotFetchPackageJson (r : string) (e : Error)
| CouldNotFetchAlerts (r : string) (e : Error)
| Summary (vulnerabilities critical outdatedPackages : nat)
| AllUpToDate
| Analyzing
| SendingReport
| Done
| FatalError (e : Error).

(** What a run does to the outside, in order. *)
Inductive Event :=
| Log (l : LogLine)
| GitHubGet (path : string)
| RegistryGet (packageName : string)
| ClaudePost (p : Prompt)
| SendMail (m : Mail).

(** ** The outside world *)

(** A request that was sent emits ['error'], or ends with a status code
    and a text, or does neither: the service stays silent, or the response
    is cut before its ['end'] (the script sets no timeout and listens for
    no abort).  The text is represented by what [JSON.parse] makes of it:
    [None] when it is not JSON, so that [JSON.parse] throws. *)
Inductive HttpResult :=
| RequestFailed
| NoAnswer
| Response (statusCode : nat) (data : option JSON).

Record World := {
  (** [config.repos] *)
  repos : list string;
  (** [process.env] *)
  GH_TOKEN : option string;
  ANTHROPIC_API_KEY : option string;
  GMAIL_USER : option string;
  GMAIL_APP_PASSWORD : option string;
  RECIPIENT_EMAIL : option string;
  (** [api.github.com], by path and token, for a request that was sent *)
  github_host : string → string → HttpResult;
  (** [registry.npmjs.org], by package name *)
  registry : string → HttpResult;
  (** [api.anthropic.com/v1/messages], by prompt and key *)
  anthropic : Prompt → option string → HttpResult;
  (** [JSON.parse(Buffer.from(v, "base64").toString())]: the parsed text,
      or the error that one of the two calls throws *)
  decode_manifest : Value → Error + JSON;
  (** whether [transporter.sendMail] resolves; it settles either way, the
      mail library ending a silent connection by its own timeouts *)
  relay_accepts : Mail → bool;
}.

(** What the call [https.get(options, ...)] of [githubRequest] comes to:
    [None] when the call throws and nothing is sent. *)
Definition github (w : World) (path token : string) : option HttpResult :=
  if request_path_ok path && header_value_ok ("token " +:+ token)
  then Some (github_host w path token) else None.

(** ** Completions and traces *)

Inductive Completion (A : Type) :=
| Resolved (a : A)        (* the promise is fulfilled *)
| Rejected (e : Error)    (* the promise is rejected: [await] throws *)
| Uncaught (e : Error)    (* an exception inside an event callback: it
                             reaches no promise and ends the process *)
| Exited (code : nat)     (* process.exit(code) *)
| Pending.                (* the promise is never settled: [await] does
                             not return *)
Arguments Resolved {A} a.
Arguments Rejected {A} e.
Arguments Uncaught {A} e.
Arguments Exited {A} code.
Arguments Pending {A}.

Definition M (A : Type) : Type := list Event * Completion A.

Definition ret {A} (a : A) : M A := ([], Resolved a).
Definition reject {A} (e : Error) : M A := ([], Rejected e).
Definition uncaught {A} (e : Error) : M A := ([], Uncaught e).
Definition process_exit {A} (code : nat) : M A := ([], Exited code).
Definition pending {A} : M A := ([], Pending).
Definition emit (e : Event) : M unit := ([e], Resolved tt).

Definition bind {A B} (m : M A) (k : A → M B) : M B :=
  match m with
  | (t, Resolved a) => let '(t', c) := k a in (t ++ t', c)
  | (t, Rejected e) => (t, Rejected e)
  | (t, Uncaught e) => (t, Uncaught e)
  | (t, Exited n) => (t, Exited n)
  | (t, Pending) => (t, Pending)
  end.

(** [try { m } catch (error) { handler }] around awaited calls. *)
Definition try_catch {A} (m : M A) (handler : Error → M A) : M A :=
  match m with
  | (t, Rejected e) => let '(t', c) := handler e in (t ++ t', c)
  | _ => m
  end.

Notation "'let*' x := m 'in' k" := (bind m (λ x, k))
  (at level 10, x name, m at level 100, k at level 200,
   format "'[v' 'let*'  x  :=  m  'in' '/' k ']'").
Notation "m ;;; k" := (bind m (λ _, k))
  (at level 100, k at level 200, right associativity).

Definition trace {A} (m : M A) : list Event := m.1.
Definition completion {A} (m : M A) : Completion A := m.2.

(** The exit status of the process.  A run that ends with an uncaught
    exception or through the rejection handler exits with 1.  A run left
    pending is not ended by the script: the process stays as long as the
    connection does, and when it ends for want of work Node reports
    status 0. *)
Definition exit_status {A} (c : Completion A) : nat :=
  match c with
  | Resolved _ | Pending => 0
  | Exited n => n
  | Rejected _ | Uncaught _ => 1
  end.

(** A missing or empty environment variable is falsy. *)
Definition present (v : option string) : bool :=
  match v with
  | Some s => negb (String.eqb s "")
  | None => false
  end.

(** ** Functions shared by both revisions *)

(** [getNpmPackageInfo] (lines 36-57 and 322-343). *)
Definition getNpmPackageInfo (w : World) (packageName : string) : M (option Info) :=
  emit (RegistryGet packageName);;;
  match registry w packageName with
  | RequestFailed => ret None
  | NoAnswer => pending
  | Response statusCode data =>
      if statusCode =? 200 then
        match data with
        | None => uncaught SyntaxError
        | Some pkg =>
            match
              dist_tags ← get_field (Some pkg) "dist-tags";
              tag ← get_field dist_tags "latest";
              text ← get_field (Some pkg) "description";
              page ← get_field (Some pkg) "homepage";
              Some {| info_latest := tag; info_description := text;
                      info_homepage := page |}
            with
            | Some info => ret (Some info)
            | None => uncaught TypeError
            end
        end
      else ret None
  end.

Definition package_json_path (r : string) : string :=
  "/repos/" +:+ r +:+ "/contents/package.json".

(** [getPackageJson] (lines 60-69 and 374-383).  The text is the same in
    both revisions; each calls its own [githubRequest], the first argument
    here. *)
Definition getPackageJson (githubRequest : World → string → string → M JSON)
    (w : World) (r token : string) : M JSON :=
  try_catch
    (let* content := githubRequest w (package_json_path r) token in
     match get_field (Some content) "content" with
     | None => reject TypeError
     | Some c =>
         match decode_manifest w c with
         | inr packageJson => ret packageJson
         | inl error => reject error
         end
     end)
    (λ error, emit (Log (CouldNotFetchPackageJson r error));;; ret JNull).

(** The body of the [for] loop of [checkOutdatedPackages], over the
    remaining entries; [acc] is the array [outdated]. *)
Fixpoint check_entries (w : World) (entries : Props)
    (acc : list DependencyRecord) : M (list DependencyRecord) :=
  match entries with
  | [] => ret acc
  | (name, currentVersion) :: rest =>
      match currentVersion with
      | JStr cur =>
          let cleanVersion := strip_range_marker cur in
          let* info := getNpmPackageInfo w name in
          match info with
          | Some i =>
              if negb (strict_eq_string (info_latest i) cleanVersion) then
                check_entries w rest
                  (acc ++ [{| package := name; current := cur;
                              latest := info_latest i;
                              description := info_description i |}])
              else check_entries w rest acc
          | None => check_entries w rest acc
          end
      | _ => reject TypeError
      end
  end.

(** The merged mapping [{...packageJson.dependencies,
    ...packageJson.devDependencies}] of a truthy [packageJson]. *)
Definition dependencies_of (packageJson : JSON) : Props :=
  object_spread
    (default undefined (get_field (Some packageJson) "dependencies"))
    (default undefined (get_field (Some packageJson) "devDependencies")).

(** [checkOutdatedPackages] (lines 72-95 and 386-409). *)
Definition checkOutdatedPackages (w : World) (packageJson : JSON)
    (repoName : string) : M OutdatedReport :=
  let dependencies := dependencies_of packageJson in
  let* outdated := check_entries w (Object_entries dependencies) [] in
  ret {| repo := repoName; outdated := outdated;
         totalDependencies := length (Object_keys dependencies) |}.

Definition totalOutdated_of (rs : list OutdatedReport) : nat :=
  foldl (λ sum r, sum + length (outdated r)) 0 rs.

(** [transporter.sendMail(m)]. *)
Definition sendMail (w : World) (m : Mail) : M unit :=
  emit (SendMail m);;;
  if relay_accepts w m then ret tt else reject SendMailError.

(** The response handler of both [analyzeWithClaude]. *)
Definition claude_response (w : World) (p : Prompt) (apiKey : option string) : M Value :=
  emit (ClaudePost p);;;
  match anthropic w p apiKey with
  | RequestFailed => reject RequestError
  | NoAnswer => pending
  | Response statusCode data =>
      if statusCode =? 200 then
        match data with
        | None => uncaught SyntaxError
        | Some response =>
            match
              content ← get_field (Some response) "content";
              first ← get_first content;
              get_field first "text"
            with
            | Some text => ret text
            | None => uncaught TypeError
            end
        end
      else reject (ClaudeApiError statusCode)
  end.

(** [main().catch((error) => { console.error(...); process.exit(1) })],
    the last statement of both revisions. *)
Definition top_level (m : M unit) : M unit :=
  try_catch m (λ error, emit (Log (FatalError error));;; process_exit 1).

(** ** The earlier revision (lines 1-284) *)

Module Basic.

(** [githubRequest] (lines 6-33).  A call of [https.get] that throws does
    so inside the executor of the promise, which is then rejected. *)
Definition githubRequest (w : World) (path token : string) : M JSON :=
  match github w path token with
  | None => reject TypeError
  | Some answer =>
      emit (GitHubGet path);;;
      match answer with
      | RequestFailed => reject RequestError
      | NoAnswer => pending
      | Response statusCode data =>
          if statusCode =? 200 then
            match data with
            | Some j => ret j
            | None => uncaught SyntaxError
            end
          else reject (GitHubApiError statusCode)
      end
  end.

(** [analyzeWithClaude] (lines 98-154): the prompt embeds
    [JSON.stringify(results)], which does not throw. *)
Definition analyzeWithClaude (w : World) (results : list OutdatedReport)
    (apiKey : option string) : M Value :=
  claude_response w (OutdatedPrompt results) apiKey.

(** [sendEmail] (lines 157-213). *)
Definition mailOptions (gmailUser recipient : option string) (analysis : Value)
    (results : list OutdatedReport) : Mail :=
  let totalOutdated := totalOutdated_of results in
  {| mail_from := gmailUser; mail_to := recipient;
     subject := "🔔 Dependency Update Report - " +:+ Number_toString totalOutdated
                +:+ " packages need attention";
     body := UpdateReport analysis results |}.

Definition sendEmail (w : World) (analysis : Value) (results : list OutdatedReport)
    (gmailUser gmailPassword recipient : option string) : M unit :=
  sendMail w (mailOptions gmailUser recipient analysis results).

(** The [for] loop of [main] (lines 240-249) over the remaining
    repositories; [o] is the constant the source calls [outdated]. *)
Fixpoint for_each_repo (w : World) (token : string) (rs : list string)
    (results : list OutdatedReport) : M (list OutdatedReport) :=
  match rs with
  | [] => ret results
  | r :: rest =>
      emit (Log (Checking r));;;
      let* packageJson := getPackageJson githubRequest w r token in
      if truthy packageJson then
        let* o := checkOutdatedPackages w packageJson r in
        emit (Log (FoundOutdated (length (outdated o))));;;
        for_each_repo w token rest (results ++ [o])
      else for_each_repo w token rest results
  end.

(** The brief mail of lines 262-267. *)
Definition all_clean_mail (w : World) : Mail :=
  {| mail_from := GMAIL_USER w; mail_to := RECIPIENT_EMAIL w;
     subject := "✅ Dependency Check: All Up To Date";
     body := ShortNotice |}.

(** The two ways [main] ends: lines 254-269 and lines 272-278. *)
Definition all_clean (w : World) : M unit :=
  emit (Log AllUpToDate);;;
  sendMail w (all_clean_mail w).

Definition needs_analysis (w : World) (results : list OutdatedReport) : M unit :=
  emit (Log Analyzing);;;
  let* analysis := analyzeWithClaude w results (ANTHROPIC_API_KEY w) in
  emit (Log SendingReport);;;
  sendEmail w analysis results (GMAIL_USER w) (GMAIL_APP_PASSWORD w)
    (RECIPIENT_EMAIL w);;;
  emit (Log Done).

(** [main] (lines 216-279). *)
Definition main (w : World) : M unit :=
  emit (Log CheckingEnvironment);;;
  match GH_TOKEN w with
  | Some githubToken =>
      if present (GH_TOKEN w) then
        emit (Log Starting);;;
        let* results := for_each_repo w githubToken (repos w) [] in
        let totalOutdated := totalOutdated_of results in
        if totalOutdated =? 0 then all_clean w else needs_analysis w results
      else emit (Log TokenNotSet);;; process_exit 1
  | None => emit (Log TokenNotSet);;; process_exit 1
  end.

(** The whole process (lines 281-284). *)
Definition run (w : World) : M unit := top_level (main w).

End Basic.

(** ** The later revision (lines 285-707) *)

Module Security.

(** [githubRequest] (lines 290-319).  A call of [https.get] that throws
    does so inside the executor of the promise, which is then rejected. *)
Definition githubRequest (w : World) (path token : string) : M JSON :=
  match github w path token with
  | None => reject TypeError
  | Some answer =>
      emit (GitHubGet path);;;
      match answer with
      | RequestFailed => reject RequestError
      | NoAnswer => pending
      | Response statusCode data =>
          if statusCode =? 200 then
            match data with
            | Some j => ret j
            | None => uncaught SyntaxError
            end
          else if statusCode =? 404 then ret JNull
          else reject (GitHubApiError statusCode)
      end
  end.

(** The callback of [alerts.map] (lines 356-366); [None] is a
    [TypeError]. *)
Definition alert_of (alert : JSON) : option Alert :=
  let vulnerability k := get_field (Some alert) "security_vulnerability" ≫= λ v, get_field v k in
  let advisory k := get_field (Some alert) "security_advisory" ≫= λ a, get_field a k in
  name ← vulnerability "package" ≫= λ p, get_field p "name";
  sev ← advisory "severity";
  summ ← advisory "summary";
  descr ← advisory "description";
  cve_id ← advisory "cve_id";
  range ← vulnerability "vulnerable_version_range";
  patched ← vulnerability "first_patched_version";
  ghsa ← advisory "ghsa_id";
  html_url ← get_field (Some alert) "html_url";
  Some {| alert_package := name; severity := sev; summary := summ;
          alert_description := descr; cve := cve_id;
          vulnerableVersionRange := range;
          (* first_patched_version?.identifier *)
          firstPatchedVersion := default undefined (get_field patched "identifier");
          ghsaId := ghsa; url := html_url |}.

(** [getSecurityAlerts] (lines 346-371). *)
Definition getSecurityAlerts (w : World) (r token : string) : M (list Alert) :=
  try_catch
    (let* alerts :=
       githubRequest w ("/repos/" +:+ r +:+ "/dependabot/alerts?state=open&per_page=100")
         token in
     if negb (truthy alerts) then ret []
     else
       match alerts with
       | JArr items =>
           match mapM alert_of items with
           | Some mapped => ret mapped
           | None => reject TypeError
           end
       | _ => reject TypeError      (* alerts.map is not a function *)
       end)
    (λ error, emit (Log (CouldNotFetchAlerts r error));;; ret []).

Definition all_severities_strings (results : list RepositoryReport) : bool :=
  forallb (λ r, forallb (λ a, is_string (severity a)) (securityAlerts r)) results.

(** [analyzeWithClaude] (lines 412-492).  Building the prompt calls
    [alert.severity.toUpperCase()] on every alert. *)
Definition analyzeWithClaude (w : World) (results : list RepositoryReport)
    (apiKey : option string) : M Value :=
  if all_severities_strings results then
    claude_response w (SecurityPrompt results) apiKey
  else reject TypeError.

Definition is_critical_or_high (a : Alert) : bool :=
  strict_eq_string (severity a) "critical" || strict_eq_string (severity a) "high".

Definition criticalSecurityIssues_of (results : list RepositoryReport) : list Alert :=
  flat_map (λ r, List.filter is_critical_or_high (securityAlerts r)) results.

Definition totalVulnerabilities_of (results : list RepositoryReport) : nat :=
  foldl (λ sum r, sum + length (securityAlerts r)) 0 results.

Definition totalOutdated_of (results : list RepositoryReport) : nat :=
  foldl (λ sum r, sum + length (outdated (report r))) 0 results.

(** The subject chosen by [sendEmail] (lines 504-520). *)
Definition subject_of (results : list RepositoryReport) : string :=
  let criticalSecurityIssues := criticalSecurityIssues_of results in
  let totalVulnerabilities := totalVulnerabilities_of results in
  let totalOutdated := totalOutdated_of results in
  if 0 <? length criticalSecurityIssues then
    "🚨 SECURITY ALERT: " +:+ Number_toString (length criticalSecurityIssues)
      +:+ " Critical Vulnerabilities"
  else if 0 <? totalVulnerabilities then
    "⚠️ Security Update: " +:+ Number_toString totalVulnerabilities
      +:+ " Vulnerabilities Found"
  else if 0 <? totalOutdated then
    "📦 " +:+ Number_toString totalOutdated +:+ " Package Updates Available"
  else "📦 Monthly Dependency Report".

(** [sendEmail] (lines 495-611).  The HTML template calls
    [analysis.replace] and [alert.severity.toUpperCase()]. *)
Definition mailOptions (gmailUser recipient : option string) (text : string)
    (results : list RepositoryReport) : Mail :=
  {| mail_from := gmailUser; mail_to := recipient;
     subject := subject_of results;
     body := FullReport text results |}.

Definition sendEmail (w : World) (analysis : Value) (results : list RepositoryReport)
    (gmailUser gmailPassword recipient : option string) : M unit :=
  match analysis with
  | Some (JStr text) =>
      if all_severities_strings results then
        sendMail w (mailOptions gmailUser recipient text results)
      else reject TypeError
  | _ => reject TypeError
  end.

(** One turn of the [for] loop of [main] (lines 637-665); [o] is the
    constant the source calls [outdated]. *)
Definition check_repo (w : World) (token r : string) : M RepositoryReport :=
  emit (Log (Checking r));;;
  let* packageJson := getPackageJson githubRequest w r token in
  emit (Log (CheckingAlerts r));;;
  let* alerts := getSecurityAlerts w r token in
  emit (Log (FoundAlerts (length alerts)));;;
  if truthy packageJson then
    let* o := checkOutdatedPackages w packageJson r in
    emit (Log (FoundOutdated (length (outdated o))));;;
    ret {| report := o; securityAlerts := alerts |}
  else
    ret {| report := {| repo := r; outdated := []; totalDependencies := 0 |};
           securityAlerts := alerts |}.

Fixpoint for_each_repo (w : World) (token : string) (rs : list string)
    (results : list RepositoryReport) : M (list RepositoryReport) :=
  match rs with
  | [] => ret results
  | r :: rest =>
      let* entry := check_repo w token r in
      for_each_repo w token rest (results ++ [entry])
  end.

(** The brief mail of lines 685-690. *)
Definition all_clean_mail (w : World) : Mail :=
  {| mail_from := GMAIL_USER w; mail_to := RECIPIENT_EMAIL w;
     subject := "✅ Dependency Check: All Secure & Up To Date";
     body := ShortNotice |}.

(** The two ways [main] ends: lines 678-692 and lines 695-701. *)
Definition all_clean (w : World) : M unit :=
  emit (Log AllUpToDate);;;
  sendMail w (all_clean_mail w).

Definition needs_analysis (w : World) (results : list RepositoryReport) : M unit :=
  emit (Log Analyzing);;;
  let* analysis := analyzeWithClaude w results (ANTHROPIC_API_KEY w) in
  emit (Log SendingReport);;;
  sendEmail w analysis results (GMAIL_USER w) (GMAIL_APP_PASSWORD w)
    (RECIPIENT_EMAIL w);;;
  emit (Log Done).

(** [main] (lines 614-702). *)
Definition main (w : World) : M unit :=
  emit (Log CheckingEnvironment);;;
  match GH_TOKEN w with
  | Some githubToken =>
      if present (GH_TOKEN w) then
        emit (Log Starting);;;
        let* results := for_each_repo w githubToken (repos w) [] in
        let totalVulnerabilities := totalVulnerabilities_of results in
        let totalOutdated := totalOutdated_of results in
        let criticalCount :=
          length (List.filter is_critical_or_high (flat_map securityAlerts results)) in
        emit (Log (Summary totalVulnerabilities criticalCount totalOutdated));;;
        if (totalVulnerabilities =? 0) && (totalOutdated =? 0) then all_clean w
        else needs_analysis w results
      else emit (Log TokenNotSet);;; process_exit 1
  | None => emit (Log TokenNotSet);;; process_exit 1
  end.

(** The whole process (lines 704-707). *)
Definition run (w : World) : M unit := top_level (main w).

End Security.

(** ** Observations on a trace *)

(** The mails handed to the relay and the prompts posted, in order. *)
Definition mails (t : list Event) : list Mail :=
  omap (λ e, match e with SendMail m => Some m | _ => None end) t.

Definition prompts (t : list Event) : list Prompt :=
  omap (λ e, match e with ClaudePost p => Some p | _ => None end) t.

(** The events of the per-repository loop: console lines and requests to
    the repository host and the registry. *)
Definition fetch_event (e : Event) : Prop :=
  match e with
  | Log _ | GitHubGet _ | RegistryGet _ => True
  | ClaudePost _ | SendMail _ => False
  end.

(** What the later [main] has done when its loop has returned [results]
    with trace [t] and the summary lines are printed. *)
Definition summary_line (results : list RepositoryReport) : Event :=
  Log (Summary (Security.totalVulnerabilities_of results)
         (length (List.filter Security.is_critical_or_high
                    (flat_map securityAlerts results)))
         (Security.totalOutdated_of results)).

Definition security_pre (t : list Event) (results : list RepositoryReport) : list Event :=
  [Log CheckingEnvironment; Log Starting] ++ t ++ [summary_line results].



(** The record the comparator makes of one entry of the merged mapping,
    if it makes one. *)
Definition record_for (w : World) (e : string * JSON) : option DependencyRecord :=
  match e.2, completion (getNpmPackageInfo w e.1) with
  | JStr cur, Resolved (Some i) =>
      if negb (strict_eq_string (info_latest i) (strip_range_marker cur)) then
        Some {| package := e.1; current := cur; latest := info_latest i;
                description := info_description i |}
      else None
  | _, _ => None
  end.

(** An entry the loop of the comparator gets past: the declared version
    is a string and the registry lookup resolves. *)
Definition entry_checkable (w : World) (e : string * JSON) : Prop :=
  is_string (Some e.2) = true ∧
  ∃ info, completion (getNpmPackageInfo w e.1) = Resolved info.

(** ** Further observations *)

(** The paths requested from the repository host and the names looked up
    in the registry, in order. *)
Definition github_gets (t : list Event) : list string :=
  omap (λ e, match e with GitHubGet path => Some path | _ => None end) t.

Definition registry_gets (t : list Event) : list string :=
  omap (λ e, match e with RegistryGet name => Some name | _ => None end) t.

(** The path [getSecurityAlerts] requests for [r]. *)
Definition alerts_path (r : string) : string :=
  "/repos/" +:+ r +:+ "/dependabot/alerts?state=open&per_page=100".

(** A value whose properties can be read: neither [undefined] nor
    [null]. *)
Definition readable (v : Value) : bool :=
  match v with
  | None | Some JNull => false
  | Some _ => true
  end.

(** [v.k] where the read does not throw, [undefined] where it does. *)
Definition field (v : Value) (k : string) : Value :=
  default undefined (get_field v k).

(** An element of the alerts array on which the callback of [alerts.map]
    does not throw: the element, its [security_vulnerability], the
    [package] of that, and its [security_advisory] can be read from. *)
Definition alert_readable (alert : JSON) : bool :=
  readable (Some alert) &&
  readable (field (Some alert) "security_vulnerability") &&
  readable (field (field (Some alert) "security_vulnerability") "package") &&
  readable (field (Some alert) "security_advisory").

(** A completion that is not a call of [process.exit]. *)
Definition not_exited {A} (c : Completion A) : Prop :=
  match c with
  | Exited _ => False
  | _ => True
  end.

(** A completion other than [Pending]. *)
Definition settled {A} (c : Completion A) : Prop :=
  match c with
  | Pending => False
  | _ => True
  end.

(** Every request that is sent is answered to its end, or fails. *)
Definition every_request_settles (w : World) : Prop :=
  (∀ path token, github_host w path token ≠ NoAnswer) ∧
  (∀ name, registry w name ≠ NoAnswer) ∧
  (∀ p apiKey, anthropic w p apiKey ≠ NoAnswer).

(** How the functions below [main] complete: none calls [process.exit],
    and one is left pending only by a request that does not settle. *)
Definition below_main {A} (w : World) (c : Completion A) : Prop :=
  not_exited c ∧ (every_request_settles w → settled c).

(** [response.content[0].text], as the response handler of the summarizer
    reads it; [None] is the [TypeError] of a step that cannot be read. *)
Definition first_text (response : JSON) : option Value :=
  content ← get_field (Some response) "content";
  first ← get_first content;
  get_field first "text".

(** The earlier revision's [getPackageJson] resolves to a truthy manifest
    for [r]. *)
Definition has_manifest (w : World) (token r : string) : bool :=
  match completion (getPackageJson Basic.githubRequest w r token) with
  | Resolved packageJson => truthy packageJson
  | _ => false
  end.

(** What can be seen of a run, or of a part of one, from outside: at most
    one mail is handed to the relay and at most one prompt is posted; it
    ends successfully exactly when one mail was handed over and the relay
    accepted it; [process.exit] is called with no other status than 1;
    and it is left pending only by a request that does not settle. *)
Definition one_mail_discipline (w : World) (m : M unit) : Prop :=
  length (mails (trace m)) ≤ 1 ∧
  length (prompts (trace m)) ≤ 1 ∧
  (completion m = Resolved tt ↔
   ∃ mail, mails (trace m) = [mail] ∧ relay_accepts w mail = true) ∧
  (∀ n, completion m = Exited n → n = 1) ∧
  (every_request_settles w → settled (completion m)).

(** The requests [githubRequest] sends for [path]: one, or none when the
    call of [https.get] throws. *)
Definition sent (w : World) (token path : string) : list string :=
  match github w path token with
  | Some _ => [path]
  | None => []
  end.


(** The report the later [main] pushes for a repository of which it has
    learnt nothing. *)
Definition empty_report (r : string) : RepositoryReport :=
  {| report := {| repo := r; outdated := []; totalDependencies := 0 |};
     securityAlerts := [] |}.

(** ** Example worlds *)

Module Example.

Definition manifest_path : string := "/repos/acme/app/contents/package.json".
Definition alerts_path : string :=
  "/repos/acme/app/dependabot/alerts?state=open&per_page=100".

(** [{"dependencies": {"left-pad": "^1.0.0"}}] and its base64 text. *)
Definition left_pad_manifest : JSON :=
  JObj [("dependencies", JObj [("left-pad", JStr "^1.0.0")])].
Definition left_pad_manifest_base64 : string :=
  "eyJkZXBlbmRlbmNpZXMiOiB7ImxlZnQtcGFkIjogIl4xLjAuMCJ9fQ==".

(** [{"dependencies": {"left-pad": "1.3.0"}}] and its base64 text. *)
Definition current_manifest : JSON :=
  JObj [("dependencies", JObj [("left-pad", JStr "1.3.0")])].
Definition current_manifest_base64 : string :=
  "eyJkZXBlbmRlbmNpZXMiOiB7ImxlZnQtcGFkIjogIjEuMy4wIn19".

(** A manifest with both groups; [lodash] is in both. *)
Definition two_group_manifest : JSON :=
  JObj [("dependencies",
          JObj [("left-pad", JStr "^1.0.0"); ("lodash", JStr "4.17.21")]);
        ("devDependencies",
          JObj [("lodash", JStr "^4.17.0"); ("jest", JStr "~29.7.0")])].

Definition decode (v : Value) : Error + JSON :=
  match v with
  | Some (JStr s) =>
      if String.eqb s left_pad_manifest_base64 then inr left_pad_manifest
      else if String.eqb s current_manifest_base64 then inr current_manifest
      else inl SyntaxError
  | _ => inl TypeError
  end.

Definition not_found : HttpResult :=
  Response 404 (Some (JObj [("message", JStr "Not Found")])).

(** The registry knows [left-pad], latest version 1.3.0. *)
Definition left_pad_registry (name : string) : HttpResult :=
  if String.eqb name "left-pad" then
    Response 200
      (Some (JObj [("name", JStr "left-pad");
                   ("dist-tags", JObj [("latest", JStr "1.3.0")]);
                   ("description", JStr "String left pad")]))
  else not_found.

(** The registry answers 200 with a document that has no [dist-tags], as
    it does for a package all of whose versions were unpublished. *)
Definition unpublished_registry (name : string) : HttpResult :=
  Response 200
    (Some (JObj [("name", JStr name);
                 ("time", JObj [("unpublished", JObj [("name", JStr name)])])])).

Definition high_alert : JSON :=
  JObj [("security_vulnerability",
          JObj [("package", JObj [("name", JStr "minimist")]);
                ("vulnerable_version_range", JStr "< 1.2.6");
                ("first_patched_version", JObj [("identifier", JStr "1.2.6")])]);
        ("security_advisory",
          JObj [("severity", JStr "high");
                ("summary", JStr "Prototype pollution");
                ("description", JStr "Prototype pollution in minimist");
                ("cve_id", JStr "CVE-2021-44906");
                ("ghsa_id", JStr "GHSA-xvch-5gv4-984h")]);
        ("html_url", JStr "https://github.com/acme/app/security/dependabot/1")].

(** The repository host: the manifest under [content] (as base64 text, or
    missing), and the open alerts. *)
Definition host (manifest : option string) (alerts : list JSON)
    (path token : string) : HttpResult :=
  if String.eqb path manifest_path then
    match manifest with
    | Some text => Response 200 (Some (JObj [("content", JStr text)]))
    | None => not_found
    end
  else if String.eqb path alerts_path then Response 200 (Some (JArr alerts))
  else not_found.

Definition analysis_response : HttpResult :=
  Response 200
    (Some (JObj [("content",
                   JArr [JObj [("type", JStr "text");
                               ("text", JStr "Update left-pad to 1.3.0.")]])])).

Definition overloaded_response : HttpResult :=
  Response 529 (Some (JObj [("type", JStr "error")])).

Definition world (manifest : option string) (alerts : list JSON)
    (reg : string → HttpResult) (completion_api : HttpResult) : World :=
  {| repos := ["acme/app"];
     GH_TOKEN := Some "ghp_example";
     ANTHROPIC_API_KEY := Some "sk-ant-example";
     GMAIL_USER := Some "monitor@example.com";
     GMAIL_APP_PASSWORD := Some "app-password";
     RECIPIENT_EMAIL := Some "owner@example.com";
     github_host := host manifest alerts;
     registry := reg;
     anthropic := λ _ _, completion_api;
     decode_manifest := decode;
     relay_accepts := λ _, true |}.

(** What the comparator makes of [left_pad_manifest] against
    [left_pad_registry]. *)
Definition left_pad_record : DependencyRecord :=
  {| package := "left-pad"; current := "^1.0.0";
     latest := Some (JStr "1.3.0");
     description := Some (JStr "String left pad") |}.

Definition left_pad_report : RepositoryReport :=
  {| report := {| repo := "acme/app"; outdated := [left_pad_record];
                  totalDependencies := 1 |};
     securityAlerts := [] |}.

(** What [getSecurityAlerts] makes of [high_alert], and the report of a
    repository that has this alert and no manifest. *)
Definition high_alert_record : Alert :=
  {| alert_package := Some (JStr "minimist");
     severity := Some (JStr "high");
     summary := Some (JStr "Prototype pollution");
     alert_description := Some (JStr "Prototype pollution in minimist");
     cve := Some (JStr "CVE-2021-44906");
     vulnerableVersionRange := Some (JStr "< 1.2.6");
     firstPatchedVersion := Some (JStr "1.2.6");
     ghsaId := Some (JStr "GHSA-xvch-5gv4-984h");
     url := Some (JStr "https://github.com/acme/app/security/dependabot/1") |}.

Definition high_report : RepositoryReport :=
  {| report := {| repo := "acme/app"; outdated := []; totalDependencies := 0 |};
     securityAlerts := [high_alert_record] |}.

(** The same alert with severity [critical], in a repository with no
    outdated package. *)
Definition critical_alert_record : Alert :=
  {| alert_package := Some (JStr "minimist");
     severity := Some (JStr "critical");
     summary := Some (JStr "Prototype pollution");
     alert_description := Some (JStr "Prototype pollution in minimist");
     cve := Some (JStr "CVE-2021-44906");
     vulnerableVersionRange := Some (JStr "< 1.2.6");
     firstPatchedVersion := Some (JStr "1.2.6");
     ghsaId := Some (JStr "GHSA-xvch-5gv4-984h");
     url := Some (JStr "https://github.com/acme/app/security/dependabot/1") |}.

Definition critical_report : RepositoryReport :=
  {| report := {| repo := "acme/app"; outdated := []; totalDependencies := 1 |};
     securityAlerts := [critical_alert_record] |}.

Definition critical_results : list RepositoryReport := [critical_report].

(** Scenario A of the specification: one outdated package, no alert. *)
Definition outdated_world : World :=
  world (Some left_pad_manifest_base64) [] left_pad_registry analysis_response.


(** Scenario C: one outdated package, and the completion endpoint answers
    with a non-success status. *)
Definition overloaded_world : World :=
  world (Some left_pad_manifest_base64) [] left_pad_registry overloaded_response.

(** The manifest is missing; one alert of severity [high] is open. *)
Definition no_manifest_world : World :=
  world None [high_alert] left_pad_registry analysis_response.

(** The registry knows [left-pad] and [jest], not [lodash]. *)
Definition two_package_registry (name : string) : HttpResult :=
  if String.eqb name "jest" then
    Response 200
      (Some (JObj [("name", JStr "jest");
                   ("dist-tags", JObj [("latest", JStr "30.0.0")])]))
  else left_pad_registry name.

Definition two_package_world : World :=
  world (Some left_pad_manifest_base64) [] two_package_registry
    analysis_response.

(** The registry accepts the connection and never answers. *)
Definition silent_registry_world : World :=
  world (Some left_pad_manifest_base64) [] (λ _, NoAnswer) analysis_response.

(** The registry answers 200 without [dist-tags]. *)
Definition unpublished_world : World :=
  world (Some left_pad_manifest_base64) [] unpublished_registry analysis_response.

(** An alert whose advisory carries no [severity], in a repository with
    nothing outdated. *)
Definition unrated_alert : JSON :=
  JObj [("security_vulnerability",
          JObj [("package", JObj [("name", JStr "minimist")]);
                ("vulnerable_version_range", JStr "< 1.2.6");
                ("first_patched_version", JNull)]);
        ("security_advisory",
          JObj [("summary", JStr "Prototype pollution");
                ("ghsa_id", JStr "GHSA-xvch-5gv4-984h")]);
        ("html_url", JStr "https://github.com/acme/app/security/dependabot/2")].

Definition unrated_world : World :=
  world (Some current_manifest_base64) [unrated_alert] left_pad_registry
    analysis_response.

(** An alert that has lost its advisory, after a readable one. *)
Definition bare_alert : JSON :=
  JObj [("security_vulnerability",
          JObj [("package", JObj [("name", JStr "minimist")])]);
        ("security_advisory", JNull)].

Definition bare_alert_world : World :=
  world (Some current_manifest_base64) [high_alert; bare_alert]
    left_pad_registry analysis_response.

(** The completion endpoint answers 200 and the first block of [content]
    has no [text]. *)
Definition tool_use_response : HttpResult :=
  Response 200
    (Some (JObj [("content",
                   JArr [JObj [("type", JStr "tool_use");
                               ("name", JStr "lookup")]])])).

Definition tool_use_world : World :=
  world (Some left_pad_manifest_base64) [] left_pad_registry tool_use_response.

(** The completion endpoint answers 200 with no block in [content]. *)
Definition empty_content_response : HttpResult :=
  Response 200
    (Some (JObj [("content", JArr []); ("stop_reason", JStr "end_turn")])).

Definition empty_content_world : World :=
  world (Some left_pad_manifest_base64) [] left_pad_registry
    empty_content_response.


(** The second configured name has a space in it. *)
Definition spaced_name_world : World :=
  {| repos := ["acme/app"; "acme/my app"];
     GH_TOKEN := Some "ghp_example";
     ANTHROPIC_API_KEY := Some "sk-ant-example";
     GMAIL_USER := Some "monitor@example.com";
     GMAIL_APP_PASSWORD := Some "app-password";
     RECIPIENT_EMAIL := Some "owner@example.com";
     github_host := host (Some current_manifest_base64) [];
     registry := left_pad_registry;
     anthropic := λ _ _, analysis_response;
     decode_manifest := decode;
     relay_accepts := λ _, true |}.

(** The repository host refuses the token on every path. *)
Definition unauthorized : HttpResult :=
  Response 401 (Some (JObj [("message", JStr "Bad credentials")])).

Definition unauthorized_world : World :=
  {| repos := ["acme/app"; "acme/site"];
     GH_TOKEN := Some "ghp_expired";
     ANTHROPIC_API_KEY := Some "sk-ant-example";
     GMAIL_USER := Some "monitor@example.com";
     GMAIL_APP_PASSWORD := Some "app-password";
     RECIPIENT_EMAIL := Some "owner@example.com";
     github_host := λ _ _, unauthorized;
     registry := left_pad_registry;
     anthropic := λ _ _, analysis_response;
     decode_manifest := decode;
     relay_accepts := λ _, true |}.

(** The relay refuses every mail; otherwise as [clean_world]. *)
Definition refusing_relay_world : World :=
  {| repos := ["acme/app"];
     GH_TOKEN := Some "ghp_example";
     ANTHROPIC_API_KEY := Some "sk-ant-example";
     GMAIL_USER := Some "monitor@example.com";
     GMAIL_APP_PASSWORD := Some "wrong-password";
     RECIPIENT_EMAIL := Some "owner@example.com";
     github_host := host (Some current_manifest_base64) [];
     registry := left_pad_registry;
     anthropic := λ _ _, analysis_response;
     decode_manifest := decode;
     relay_accepts := λ _, false |}.

End Example.

(** * Properties *)

(** ** Version normalization *)

Lemma strip_range_marker_unmarked (s : string) :
  starts_with_marker s = false → strip_range_marker s = s.
Proof. destruct s as [|c s]; simpl; [done|]. by intros ->. Qed.

(** C8.  Normalization strips a leading caret or tilde and leaves a
    string that starts with neither unchanged: "^1.2.3" and "~1.2.3" become
    "1.2.3", and "1.2.3" stays as it is. *)
Theorem normalization_strips_leading_marker :
  (∀ s, strip_range_marker (String "^" s) = s) ∧
  (∀ s, strip_range_marker (String "~" s) = s) ∧
  (∀ s, starts_with_marker s = false → strip_range_marker s = s) ∧
  strip_range_marker "^1.2.3" = "1.2.3" ∧
  strip_range_marker "~1.2.3" = "1.2.3" ∧
  strip_range_marker "1.2.3" = "1.2.3".
Proof.
  split_and!; try reflexivity.
  apply strip_range_marker_unmarked.
Qed.

Lemma normalization_witness :
  starts_with_marker "1.2.3" = false ∧ strip_range_marker "1.2.3" = "1.2.3".
Proof.
  split; [reflexivity|].
  destruct normalization_strips_leading_marker as (_ & _ & Hplain & _).
  by apply Hplain.
Defined.

(** ** Property lists *)

Section props.
Implicit Types (o : Props) (k : string) (v : JSON).

Lemma eqb_decide k k' : String.eqb k k' = bool_decide (k = k').
Proof.
  destruct (String.eqb_spec k k') as [->|Hne].
  - by rewrite bool_decide_eq_true_2.
  - by rewrite bool_decide_eq_false_2.
Qed.

Lemma assoc_put k k' v o :
  assoc k (put k' v o) = if bool_decide (k = k') then Some v else assoc k o.
Proof.
  induction o as [|[k0 v0] o IH]; simpl.
  - rewrite eqb_decide. by case_bool_decide.
  - destruct (String.eqb_spec k' k0) as [->|Hne]; simpl.
    + rewrite eqb_decide. by case_bool_decide.
    + rewrite IH eqb_decide. repeat case_bool_decide; by simplify_eq.
Qed.

Lemma put_keys k v o :
  (put k v o).*1 = if bool_decide (k ∈ o.*1) then o.*1 else o.*1 ++ [k].
Proof.
  induction o as [|[k0 v0] o IH]; csimpl; [done|].
  destruct (String.eqb_spec k k0) as [->|Hne]; csimpl.
  - rewrite bool_decide_eq_true_2 //. set_solver.
  - rewrite IH. destruct (decide (k ∈ o.*1)) as [Hin|Hin].
    + rewrite !bool_decide_eq_true_2 //. set_solver.
    + rewrite !bool_decide_eq_false_2 //. set_solver.
Qed.

Lemma put_NoDup k v o : NoDup o.*1 → NoDup (put k v o).*1.
Proof.
  intros Hnd. rewrite put_keys. case_bool_decide as Hk; [done|].
  apply NoDup_app. split_and!; [done| |apply NoDup_singleton].
  intros x Hx ?%list_elem_of_singleton. by subst.
Qed.

Lemma assoc_None k o : assoc k o = None ↔ k ∉ o.*1.
Proof.
  induction o as [|[k0 v0] o IH]; csimpl.
  - split; [set_solver|done].
  - destruct (String.eqb_spec k k0) as [->|Hne].
    + split; [done|set_solver].
    + rewrite IH. set_solver.
Qed.

Lemma assoc_Some k v o : NoDup o.*1 → assoc k o = Some v ↔ (k, v) ∈ o.
Proof.
  induction o as [|[k0 v0] o IH]; csimpl; intros Hnd.
  - split; [done|set_solver].
  - apply NoDup_cons in Hnd as [Hk0 Hnd].
    destruct (String.eqb_spec k k0) as [->|Hne].
    + split; [intros [= ->]; set_solver|].
      intros [[= ->]|Hin]%elem_of_cons; [done|].
      destruct Hk0. apply list_elem_of_fmap. by exists (k0, v).
    + rewrite IH // elem_of_cons. naive_solver.
Qed.

Lemma assoc_list_to_map o k : (list_to_map o : gmap string JSON) !! k = assoc k o.
Proof.
  induction o as [|[k0 v0] o IH]; csimpl; [done|].
  destruct (String.eqb_spec k k0) as [->|Hne].
  - by rewrite lookup_insert_eq.
  - by rewrite lookup_insert_ne.
Qed.

End props.

Section spread.
Implicit Types (o es : Props) (k : string) (v : JSON).

Lemma insert_by_index_perm i e l : insert_by_index i e l ≡ₚ (i, e) :: l.
Proof.
  induction l as [|[j e'] l IH]; simpl; [done|].
  destruct (i <=? j)%N; [done|]. by rewrite IH Permutation_swap.
Qed.

Lemma own_property_order_perm o : own_property_order o ≡ₚ o.
Proof.
  rewrite /own_property_order. induction o as [|e o IH]; [done|]. simpl.
  destruct (array_index e.1) as [i|] eqn:He.
  - rewrite filter_cons_False; [by rewrite /is_index_key He|].
    by rewrite insert_by_index_perm /= IH.
  - rewrite filter_cons_True; [by rewrite /is_index_key He|].
    by rewrite -Permutation_middle IH.
Qed.

Lemma own_property_order_keys o : (own_property_order o).*1 ≡ₚ o.*1.
Proof. by rewrite own_property_order_perm. Qed.

Lemma own_property_order_elem_of e o : e ∈ own_property_order o ↔ e ∈ o.
Proof. by rewrite own_property_order_perm. Qed.

Lemma own_property_order_NoDup o : NoDup o.*1 → NoDup (own_property_order o).*1.
Proof. by rewrite own_property_order_keys. Qed.

Lemma assoc_own_property_order k o :
  NoDup o.*1 → assoc k (own_property_order o) = assoc k o.
Proof.
  intros Hnd. destruct (assoc k o) as [v|] eqn:Hk.
  - apply assoc_Some; [by apply own_property_order_NoDup|].
    apply own_property_order_elem_of. by apply assoc_Some.
  - apply assoc_None. rewrite own_property_order_keys. by apply assoc_None.
Qed.

Lemma foldl_put_NoDup es o : NoDup o.*1 → NoDup (foldl put_entry o es).*1.
Proof.
  revert o. induction es as [|e es IH]; intros o Hnd; simpl; [done|].
  apply IH. by apply put_NoDup.
Qed.

Lemma foldl_put_keys es o k :
  k ∈ (foldl put_entry o es).*1 ↔ k ∈ o.*1 ∨ k ∈ es.*1.
Proof.
  revert o. induction es as [|e es IH]; intros o; csimpl.
  - set_solver.
  - rewrite IH /put_entry put_keys. case_bool_decide; set_solver.
Qed.

Lemma assoc_foldl_put es o k :
  NoDup es.*1 →
  assoc k (foldl put_entry o es) =
  match assoc k es with Some v => Some v | None => assoc k o end.
Proof.
  revert o. induction es as [|[k0 v0] es IH]; intros o Hnd; [done|].
  rewrite fmap_cons in Hnd. apply NoDup_cons in Hnd as [Hk0 Hnd]. simpl in Hk0.
  rewrite /= IH // /put_entry assoc_put /=.
  destruct (String.eqb_spec k k0) as [->|Hne].
  - rewrite bool_decide_eq_true_2 //.
    by apply assoc_None in Hk0 as ->.
  - rewrite bool_decide_eq_false_2 //.
Qed.

Lemma object_spread_NoDup a b : NoDup (object_spread a b).*1.
Proof. apply foldl_put_NoDup, foldl_put_NoDup. constructor. Qed.

Lemma object_spread_keys a b k :
  k ∈ (object_spread a b).*1 ↔ k ∈ (own_entries a).*1 ∨ k ∈ (own_entries b).*1.
Proof. rewrite /object_spread !foldl_put_keys. set_solver. Qed.

Lemma assoc_object_spread a b k :
  NoDup (own_entries a).*1 → NoDup (own_entries b).*1 →
  assoc k (object_spread a b) =
  match assoc k (own_entries b) with
  | Some v => Some v
  | None => assoc k (own_entries a)
  end.
Proof.
  intros Ha Hb. rewrite /object_spread !assoc_foldl_put //=.
  by destruct (assoc k (own_entries a)).
Qed.

Lemma object_spread_length a b :
  length (Object_keys (object_spread a b)) =
  size (list_to_set ((own_entries a).*1 ++ (own_entries b).*1) : gset string).
Proof.
  rewrite /Object_keys own_property_order_keys.
  rewrite -(size_list_to_set (C:=gset string)); [apply object_spread_NoDup|].
  f_equal. apply set_eq. intros k.
  rewrite !elem_of_list_to_set elem_of_app. apply object_spread_keys.
Qed.

End spread.

(** C7.  The mapping the comparator iterates over is the union of the
    regular and the development group: it has no repeated name, a name
    is in it exactly when it is in one of the groups, and a name of the
    development group carries the development version even when the
    regular group has it too.  The two groups are the own properties of
    [packageJson.dependencies] and [packageJson.devDependencies]; names
    inside a group are distinct, as [JSON.parse] produces them. *)
Theorem merged_dependencies_are_union (packageJson : JSON) :
  let regular :=
    own_entries (default undefined (get_field (Some packageJson) "dependencies")) in
  let development :=
    own_entries (default undefined (get_field (Some packageJson) "devDependencies")) in
  let merged := Object_entries (dependencies_of packageJson) in
  NoDup regular.*1 → NoDup development.*1 →
  NoDup merged.*1 ∧
  (list_to_map merged : gmap string JSON) =
    list_to_map development ∪ list_to_map regular ∧
  (∀ name, name ∈ merged.*1 ↔ name ∈ regular.*1 ∨ name ∈ development.*1) ∧
  (∀ name version, (name, version) ∈ development → (name, version) ∈ merged) ∧
  (∀ name version, (name, version) ∈ regular → name ∉ development.*1 →
     (name, version) ∈ merged).
Proof.
  intros regular development merged Hr Hd.
  assert (Hm : NoDup merged.*1).
  { apply own_property_order_NoDup, object_spread_NoDup. }
  assert (Hassoc : ∀ name, assoc name merged =
    match assoc name development with
    | Some v => Some v
    | None => assoc name regular
    end).
  { intros name. rewrite /merged /Object_entries assoc_own_property_order.
    - apply object_spread_NoDup.
    - by apply assoc_object_spread. }
  split_and!; [done| | | |].
  - apply map_eq. intros name.
    rewrite lookup_union !assoc_list_to_map Hassoc.
    by destruct (assoc name development), (assoc name regular).
  - intros name. rewrite /merged /Object_entries own_property_order_keys.
    apply object_spread_keys.
  - intros name version Hin. apply assoc_Some; [done|].
    rewrite Hassoc. by apply assoc_Some in Hin as ->.
  - intros name version Hin Hnot. apply assoc_Some; [done|].
    rewrite Hassoc. apply assoc_None in Hnot as ->. by apply assoc_Some.
Qed.

Lemma merged_dependencies_witness :
  let merged := Object_entries (dependencies_of Example.two_group_manifest) in
  merged = [("left-pad", JStr "^1.0.0"); ("lodash", JStr "^4.17.0");
            ("jest", JStr "~29.7.0")] ∧
  NoDup merged.*1 ∧
  (list_to_map merged : gmap string JSON) =
    list_to_map [("lodash", JStr "^4.17.0"); ("jest", JStr "~29.7.0")] ∪
    list_to_map [("left-pad", JStr "^1.0.0"); ("lodash", JStr "4.17.21")].
Proof.
  split; [reflexivity|].
  destruct (merged_dependencies_are_union Example.two_group_manifest)
    as (Hnodup & Hunion & _).
  - vm_compute. repeat (constructor; [set_solver|]). constructor.
  - vm_compute. repeat (constructor; [set_solver|]). constructor.
  - split; [exact Hnodup|exact Hunion].
Defined.

(** ** Completions *)

Section completions.
Context {A B : Type}.
Implicit Types (m : M A) (k : A → M B).

Lemma bind_resolved m k t b :
  bind m k = (t, Resolved b) →
  ∃ t1 a t2, m = (t1, Resolved a) ∧ k a = (t2, Resolved b) ∧ t = t1 ++ t2.
Proof.
  destruct m as [t1 [a|e|e|n|]]; simpl; try done.
  destruct (k a) as [t2 c] eqn:Hk. intros [= <- ->]. by exists t1, a, t2.
Qed.

Lemma bind_Forall (P : Event → Prop) m k :
  Forall P (trace m) → (∀ a, Forall P (trace (k a))) →
  Forall P (trace (bind m k)).
Proof.
  intros Hm Hk. destruct m as [t1 [a|e|e|n|]]; simpl in *; try done.
  specialize (Hk a). destruct (k a) as [t2 c]. by apply Forall_app.
Qed.

End completions.

Lemma try_catch_Forall {A} (P : Event → Prop) (m : M A) handler :
  Forall P (trace m) → (∀ e, Forall P (trace (handler e))) →
  Forall P (trace (try_catch m handler)).
Proof.
  intros Hm Hh. destruct m as [t1 [a|e|e|n|]]; simpl in *; try done.
  specialize (Hh e). destruct (handler e) as [t2 c]. by apply Forall_app.
Qed.

(** ** The registry client *)

Lemma getNpmPackageInfo_trace w name :
  trace (getNpmPackageInfo w name) = [RegistryGet name].
Proof.
  rewrite /getNpmPackageInfo /=.
  destruct (registry w name) as [| |s [pkg|]]; simpl; try done;
    destruct (s =? 200); simpl; try done.
  by destruct (_ ≫= _).
Qed.

Lemma getNpmPackageInfo_eta w name :
  getNpmPackageInfo w name =
  ([RegistryGet name], completion (getNpmPackageInfo w name)).
Proof.
  rewrite -(getNpmPackageInfo_trace w name).
  by destruct (getNpmPackageInfo w name).
Qed.

(** A request that fails, or a response with a status other than 200,
    resolves to [null]. *)
Lemma getNpmPackageInfo_failure w name :
  (registry w name = RequestFailed ∨
   ∃ s data, registry w name = Response s data ∧ s ≠ 200) →
  getNpmPackageInfo w name = ([RegistryGet name], Resolved None).
Proof.
  rewrite /getNpmPackageInfo. intros [->|(s & data & -> & Hs)]; [done|].
  apply Nat.eqb_neq in Hs. by rewrite Hs.
Qed.

(** The promise of the registry client is never rejected. *)
Lemma getNpmPackageInfo_not_rejected w name e :
  completion (getNpmPackageInfo w name) ≠ Rejected e.
Proof.
  rewrite /getNpmPackageInfo /=.
  destruct (registry w name) as [| |s [pkg|]]; simpl; try done;
    destruct (s =? 200); simpl; try done.
  by destruct (_ ≫= _).
Qed.

(** ** The comparator *)

Lemma check_entries_step w name cur rest acc :
  check_entries w ((name, JStr cur) :: rest) acc =
  bind ([RegistryGet name], completion (getNpmPackageInfo w name))
    (λ _, check_entries w rest
            (acc ++ option_list (record_for w (name, JStr cur)))).
Proof.
  rewrite /= getNpmPackageInfo_eta /record_for /=.
  destruct (completion (getNpmPackageInfo w name)) as [[i|]|e|e|n|]; simpl; try done.
  - destruct (negb _); simpl; by rewrite ?app_nil_r.
  - by rewrite app_nil_r.
Qed.

Lemma check_entries_resolved w es acc t out :
  check_entries w es acc = (t, Resolved out) →
  out = acc ++ omap (record_for w) es ∧
  Forall (entry_checkable w) es ∧
  t = (λ e, RegistryGet e.1) <$> es.
Proof.
  revert acc t. induction es as [|[name version] es IH]; intros acc t.
  { intros [= <- <-]. by rewrite app_nil_r. }
  destruct version as [| | |cur| |]; try done.
  rewrite check_entries_step.
  intros (t1 & info & t2 & [= <- Hinfo] & Hrest & ->)%bind_resolved.
  apply IH in Hrest as (-> & Hall & ->). split_and!.
  - rewrite -app_assoc. f_equal. simpl. by destruct (record_for _ _).
  - constructor; [|done]. split; [done|]. by exists info.
  - done.
Qed.

Lemma check_entries_total w es acc :
  Forall (entry_checkable w) es →
  check_entries w es acc =
  ((λ e, RegistryGet e.1) <$> es, Resolved (acc ++ omap (record_for w) es)).
Proof.
  revert acc. induction es as [|[name version] es IH]; intros acc Hall.
  { by rewrite /= app_nil_r. }
  apply Forall_cons in Hall as [[Hstr [info Hinfo]] Hall].
  destruct version as [| | |cur| |]; try done.
  rewrite check_entries_step Hinfo /= IH // -app_assoc. do 3 f_equal.
  by destruct (record_for _ _).
Qed.

Lemma record_for_package w e d : record_for w e = Some d → package d = e.1.
Proof.
  rewrite /record_for. destruct e.2; try done.
  destruct (completion _) as [[i|]|?|?|?|]; try done.
  destruct (negb _); try done. by intros [= <-].
Qed.

Lemma omap_record_for_sublist w es :
  package <$> omap (record_for w) es `sublist_of` es.*1.
Proof.
  induction es as [|e es IH]; csimpl; [done|].
  destruct (record_for w e) as [d|] eqn:Hd; csimpl.
  - rewrite (record_for_package _ _ _ Hd). by apply sublist_skip.
  - by apply sublist_cons.
Qed.

Lemma checkOutdatedPackages_resolved w packageJson repoName t rep :
  checkOutdatedPackages w packageJson repoName = (t, Resolved rep) →
  let entries := Object_entries (dependencies_of packageJson) in
  rep = {| repo := repoName; outdated := omap (record_for w) entries;
           totalDependencies := length entries |} ∧
  Forall (entry_checkable w) entries.
Proof.
  rewrite /checkOutdatedPackages.
  intros (t1 & out & t2 & Hloop & [= <- <-] & ->)%bind_resolved.
  apply check_entries_resolved in Hloop as (-> & Hall & _).
  split; [|done]. f_equal. by rewrite /Object_keys /Object_entries length_fmap.
Qed.

Lemma checkOutdatedPackages_total w packageJson repoName :
  let entries := Object_entries (dependencies_of packageJson) in
  Forall (entry_checkable w) entries →
  completion (checkOutdatedPackages w packageJson repoName) =
  Resolved {| repo := repoName; outdated := omap (record_for w) entries;
              totalDependencies := length entries |}.
Proof.
  intros entries Hall. rewrite /checkOutdatedPackages check_entries_total //=.
  by rewrite /Object_keys /Object_entries length_fmap.
Qed.

Lemma strict_eq_string_false (v : Value) (s : string) :
  strict_eq_string v s = false ↔ v ≠ Some (JStr s).
Proof.
  destruct v as [[| | |s'| |]|]; simpl; try (split; [done|done]).
  destruct (String.eqb_spec s' s) as [->|Hne]; split; try done.
  intros _ [=]. done.
Qed.

Lemma record_for_Some w name declared d :
  record_for w (name, JStr declared) = Some d ↔
  ∃ info, completion (getNpmPackageInfo w name) = Resolved (Some info) ∧
          info_latest info ≠ Some (JStr (strip_range_marker declared)) ∧
          d = {| package := name; current := declared;
                 latest := info_latest info;
                 description := info_description info |}.
Proof.
  rewrite /record_for /=.
  destruct (completion (getNpmPackageInfo w name)) as [[i|]|?|?|?|];
    try (split; [done|by intros (? & [=] & _)]).
  destruct (strict_eq_string _ _) eqn:Heq; simpl.
  - split; [done|]. intros (info & [= <-] & Hne & _).
    apply strict_eq_string_false in Hne. congruence.
  - apply strict_eq_string_false in Heq. split.
    + intros [= <-]. by exists i.
    + by intros (info & [= <-] & _ & ->).
Qed.

(** C1.  When the comparator returns a report, every entry of the merged
    mapping has a string as its declared version, and the report holds a
    record for the entry exactly when the registry lookup for the name
    resolved to data whose [latest] is not the declared version with its
    leading marker stripped (strict inequality, no range semantics); the
    record holds the name, the declared version as written, and the
    registry's latest version and description.  In particular, for the
    manifest [{"dependencies": {"left-pad": "^1.0.0"}}] and a registry
    whose latest version of [left-pad] is "1.3.0", the report holds the one
    record {left-pad, "^1.0.0", "1.3.0"}. *)
Theorem comparator_records_iff_latest_differs :
  (∀ (w : World) (packageJson : JSON) (repoName : string)
     (t : list Event) (rep : OutdatedReport),
     checkOutdatedPackages w packageJson repoName = (t, Resolved rep) →
     ∀ name version,
       (name, version) ∈ Object_entries (dependencies_of packageJson) →
       ∃ declared, version = JStr declared ∧
         ((∃ d, d ∈ outdated rep ∧ package d = name) ↔
          (∃ info,
             completion (getNpmPackageInfo w name) = Resolved (Some info) ∧
             info_latest info ≠ Some (JStr (strip_range_marker declared)))) ∧
         (∀ d, d ∈ outdated rep → package d = name →
            ∃ info,
              completion (getNpmPackageInfo w name) = Resolved (Some info) ∧
              d = {| package := name; current := declared;
                     latest := info_latest info;
                     description := info_description info |})) ∧
  (∀ (w : World) (repoName : string) (info : Info),
     completion (getNpmPackageInfo w "left-pad") = Resolved (Some info) →
     info_latest info = Some (JStr "1.3.0") →
     completion
       (checkOutdatedPackages w
          (JObj [("dependencies", JObj [("left-pad", JStr "^1.0.0")])])
          repoName) =
     Resolved {| repo := repoName;
                 outdated := [{| package := "left-pad"; current := "^1.0.0";
                                 latest := Some (JStr "1.3.0");
                                 description := info_description info |}];
                 totalDependencies := 1 |}).
Proof.
  split.
  - intros w packageJson repoName t rep Hrep name version Hin.
    apply checkOutdatedPackages_resolved in Hrep as [-> Hall]. simpl.
    set (entries := Object_entries (dependencies_of packageJson)) in *.
    assert (Hnd : NoDup entries.*1).
    { apply own_property_order_NoDup, object_spread_NoDup. }
    pose proof (proj1 (Forall_forall _ _) Hall _ Hin) as [Hstr _].
    destruct version as [| | |declared| |]; try done.
    exists declared. split; [done|].
    assert (Hrec : ∀ d, d ∈ omap (record_for w) entries → package d = name →
                        record_for w (name, JStr declared) = Some d).
    { intros d (e & He & Hd)%list_elem_of_omap Hname.
      pose proof (record_for_package _ _ _ Hd) as Hpkg.
      assert (e = (name, JStr declared)) as ->; [|done].
      destruct e as [k v]. simpl in *. subst k.
      apply assoc_Some in He, Hin; [|done..]. congruence. }
    split; [split|].
    + intros (d & Hd & Hname).
      apply Hrec, record_for_Some in Hd as (info & ? & ? & _); [|done].
      by exists info.
    + intros (info & Hinfo & Hne).
      exists {| package := name; current := declared;
                latest := info_latest info;
                description := info_description info |}.
      split; [|done].
      apply list_elem_of_omap. exists (name, JStr declared). split; [done|].
      apply record_for_Some. by exists info.
    + intros d Hd Hname.
      apply Hrec, record_for_Some in Hd as (info & ? & ? & ->); [|done].
      by exists info.
  - intros w repoName info Hinfo Hlatest.
    set (manifest := JObj [("dependencies", JObj [("left-pad", JStr "^1.0.0")])]).
    assert (Hentries : Object_entries (dependencies_of manifest) =
                       [("left-pad", JStr "^1.0.0")]) by by vm_compute.
    rewrite checkOutdatedPackages_total Hentries.
    { repeat constructor. by exists (Some info). }
    assert (Hrec : record_for w ("left-pad", JStr "^1.0.0") =
      Some {| package := "left-pad"; current := "^1.0.0";
              latest := Some (JStr "1.3.0");
              description := info_description info |}).
    { apply record_for_Some. exists info. by rewrite Hlatest. }
    by rewrite /= Hrec.
Qed.

Lemma comparator_records_witness :
  completion
    (checkOutdatedPackages Example.outdated_world Example.left_pad_manifest
       "acme/app") =
  Resolved {| repo := "acme/app";
              outdated := [{| package := "left-pad"; current := "^1.0.0";
                              latest := Some (JStr "1.3.0");
                              description := Some (JStr "String left pad") |}];
              totalDependencies := 1 |} ∧
  ∃ declared, JStr "^1.0.0" = JStr declared ∧
    ((∃ d, d ∈ [{| package := "left-pad"; current := "^1.0.0";
                   latest := Some (JStr "1.3.0");
                   description := Some (JStr "String left pad") |}] ∧
           package d = "left-pad") ↔
     (∃ info,
        completion (getNpmPackageInfo Example.outdated_world "left-pad") =
          Resolved (Some info) ∧
        info_latest info ≠ Some (JStr (strip_range_marker declared)))).
Proof.
  destruct comparator_records_iff_latest_differs as [Hgeneral Hparticular].
  split.
  - by apply (Hparticular Example.outdated_world "acme/app"
      {| info_latest := Some (JStr "1.3.0");
         info_description := Some (JStr "String left pad");
         info_homepage := undefined |}).
  - destruct (Hgeneral Example.outdated_world Example.left_pad_manifest
      "acme/app" _ _ eq_refl "left-pad" (JStr "^1.0.0"))
      as (declared & Hd & Hiff & _).
    + vm_compute. set_solver.
    + by exists declared.
Defined.

(** C10.  A report returned by the comparator counts in [totalDependencies]
    the distinct names of the two groups (a name in both counts once), holds
    at most that many records, and the package names of its records are
    pairwise distinct keys of the merged mapping. *)
Theorem report_invariants (w : World) (packageJson : JSON) (repoName : string)
    (t : list Event) (rep : OutdatedReport) :
  checkOutdatedPackages w packageJson repoName = (t, Resolved rep) →
  let regular :=
    own_entries (default undefined (get_field (Some packageJson) "dependencies")) in
  let development :=
    own_entries (default undefined (get_field (Some packageJson) "devDependencies")) in
  totalDependencies rep =
    size (list_to_set (regular.*1 ++ development.*1) : gset string) ∧
  length (outdated rep) ≤ totalDependencies rep ∧
  NoDup (package <$> outdated rep) ∧
  (∀ d, d ∈ outdated rep → package d ∈ (dependencies_of packageJson).*1).
Proof.
  intros Hrep regular development.
  apply checkOutdatedPackages_resolved in Hrep as [-> _]. simpl.
  set (entries := Object_entries (dependencies_of packageJson)).
  pose proof (omap_record_for_sublist w entries) as Hsub.
  assert (Hnd : NoDup entries.*1).
  { apply own_property_order_NoDup, object_spread_NoDup. }
  split_and!.
  - rewrite -(length_fmap fst). apply object_spread_length.
  - rewrite -(length_fmap package) -(length_fmap fst entries).
    by apply sublist_length.
  - by eapply sublist_NoDup.
  - intros d Hd.
    rewrite -(own_property_order_keys (dependencies_of packageJson)).
    apply (sublist_subseteq _ _ Hsub), list_elem_of_fmap_2, Hd.
Qed.

Lemma report_invariants_witness :
  let rep :=
    {| repo := "acme/app";
       outdated := [{| package := "left-pad"; current := "^1.0.0";
                       latest := Some (JStr "1.3.0");
                       description := Some (JStr "String left pad") |}];
       totalDependencies := 3 |} in
  completion
    (checkOutdatedPackages Example.outdated_world Example.two_group_manifest
       "acme/app") = Resolved rep ∧
  totalDependencies rep =
    size (list_to_set (["left-pad"; "lodash"] ++ ["lodash"; "jest"]) : gset string) ∧
  length (outdated rep) ≤ totalDependencies rep ∧
  NoDup (package <$> outdated rep).
Proof.
  split; [by vm_compute|].
  destruct (report_invariants Example.outdated_world Example.two_group_manifest
    "acme/app" _ _ eq_refl) as (Htotal & Hle & Hnd & _).
  split_and!; [exact Htotal|exact Hle|exact Hnd].
Defined.

(** C9.  Normalization removes one leading marker at most: of a version
    that begins with two markers only the first goes, so what is compared
    with the registry's latest version still begins with a marker.  With
    "1.3.0" the latest version of [left-pad], an entry declared as
    "^~1.3.0" or "^^1.3.0" is therefore recorded as outdated, while one
    declared as "^1.3.0" is not. *)
Theorem normalization_strips_one_marker_only :
  (∀ s, strip_range_marker (String "^" (String "~" s)) = String "~" s) ∧
  (∀ s, strip_range_marker (String "^" (String "^" s)) = String "^" s) ∧
  (∀ s, strip_range_marker (String "~" (String "^" s)) = String "^" s) ∧
  (∀ s, strip_range_marker (String "~" (String "~" s)) = String "~" s) ∧
  strip_range_marker "^~1.2.3" = "~1.2.3" ∧
  strip_range_marker "^^1.2.3" = "^1.2.3" ∧
  starts_with_marker (strip_range_marker "^~1.2.3") = true ∧
  starts_with_marker (strip_range_marker "^^1.2.3") = true ∧
  completion
    (check_entries Example.outdated_world [("left-pad", JStr "^~1.3.0")] []) =
  Resolved [{| package := "left-pad"; current := "^~1.3.0";
               latest := Some (JStr "1.3.0");
               description := Some (JStr "String left pad") |}] ∧
  completion
    (check_entries Example.outdated_world [("left-pad", JStr "^^1.3.0")] []) =
  Resolved [{| package := "left-pad"; current := "^^1.3.0";
               latest := Some (JStr "1.3.0");
               description := Some (JStr "String left pad") |}] ∧
  completion
    (check_entries Example.outdated_world [("left-pad", JStr "^1.3.0")] []) =
  Resolved [].
Proof. split_and!; reflexivity. Qed.

(** ** Traces of the per-repository loop *)

Section traces.
Context {A B : Type}.

Lemma trace_bind (m : M A) (k : A → M B) :
  trace (bind m k) =
  trace m ++ match completion m with Resolved a => trace (k a) | _ => [] end.
Proof.
  destruct m as [t [a|e|e|n|]]; rewrite /trace /= ?app_nil_r //.
  by destruct (k a).
Qed.

Lemma completion_bind (m : M A) (k : A → M B) :
  completion (bind m k) =
  match completion m with
  | Resolved a => completion (k a)
  | Rejected e => Rejected e
  | Uncaught e => Uncaught e
  | Exited n => Exited n
  | Pending => Pending
  end.
Proof. destruct m as [t [a|e|e|n|]]; rewrite /completion //=. by destruct (k a). Qed.

Lemma trace_try_catch (m : M A) (handler : Error → M A) :
  trace (try_catch m handler) =
  trace m ++ match completion m with Rejected e => trace (handler e) | _ => [] end.
Proof.
  destruct m as [t [a|e|e|n|]]; rewrite /trace /= ?app_nil_r //.
  by destruct (handler e).
Qed.

Lemma completion_try_catch (m : M A) (handler : Error → M A) :
  completion (try_catch m handler) =
  match completion m with
  | Rejected e => completion (handler e)
  | c => c
  end.
Proof. destruct m as [t [a|e|e|n|]]; rewrite /completion //=. by destruct (handler e). Qed.

End traces.


Lemma fetch_events_quiet t : Forall fetch_event t → mails t = [] ∧ prompts t = [].
Proof.
  induction 1 as [|e t He _ [IHm IHp]]; [done|].
  rewrite /mails /prompts /=. by destruct e.
Qed.

Lemma mails_app t1 t2 : mails (t1 ++ t2) = mails t1 ++ mails t2.
Proof. apply omap_app. Qed.

Lemma prompts_app t1 t2 : prompts (t1 ++ t2) = prompts t1 ++ prompts t2.
Proof. apply omap_app. Qed.

Lemma check_entries_fetch w es acc :
  Forall fetch_event (trace (check_entries w es acc)).
Proof.
  revert acc. induction es as [|[name version] es IH]; intros acc; [done|].
  destruct version as [| | |cur| |]; try done.
  rewrite check_entries_step. apply bind_Forall; [|done].
  by repeat constructor.
Qed.

Lemma checkOutdatedPackages_fetch w packageJson repoName :
  Forall fetch_event (trace (checkOutdatedPackages w packageJson repoName)).
Proof. apply bind_Forall; [apply check_entries_fetch|done]. Qed.

Lemma getPackageJson_fetch githubRequest w r token :
  (∀ path, Forall fetch_event (trace (githubRequest w path token))) →
  Forall fetch_event (trace (getPackageJson githubRequest w r token)).
Proof.
  intros Hreq. apply try_catch_Forall.
  - apply bind_Forall; [done|]. intros content.
    destruct (get_field _ _) as [c|]; [|done]. by destruct (decode_manifest w c).
  - intros e. by repeat constructor.
Qed.

Lemma basic_githubRequest_eq w path token :
  Basic.githubRequest w path token =
  match github w path token with
  | None => ([], Rejected TypeError)
  | Some answer =>
      ([GitHubGet path],
       match answer with
       | RequestFailed => Rejected RequestError
       | NoAnswer => Pending
       | Response s data =>
           if s =? 200 then
             match data with
             | Some j => Resolved j
             | None => Uncaught SyntaxError
             end
           else Rejected (GitHubApiError s)
       end)
  end.
Proof.
  rewrite /Basic.githubRequest /emit /bind /=.
  destruct (github w path token) as [[| |s [j|]]|]; try done;
    by destruct (s =? 200).
Qed.

Lemma security_githubRequest_eq w path token :
  Security.githubRequest w path token =
  match github w path token with
  | None => ([], Rejected TypeError)
  | Some answer =>
      ([GitHubGet path],
       match answer with
       | RequestFailed => Rejected RequestError
       | NoAnswer => Pending
       | Response s data =>
           if s =? 200 then
             match data with
             | Some j => Resolved j
             | None => Uncaught SyntaxError
             end
           else if s =? 404 then Resolved JNull
           else Rejected (GitHubApiError s)
       end)
  end.
Proof.
  rewrite /Security.githubRequest /emit /bind /=.
  destruct (github w path token) as [[| |s [j|]]|]; try done;
    destruct (s =? 200); try done; by destruct (s =? 404).
Qed.

Lemma basic_githubRequest_fetch w path token :
  Forall fetch_event (trace (Basic.githubRequest w path token)).
Proof.
  rewrite basic_githubRequest_eq.
  destruct (github w path token) as [answer|]; by repeat constructor.
Qed.

Lemma security_githubRequest_fetch w path token :
  Forall fetch_event (trace (Security.githubRequest w path token)).
Proof.
  rewrite security_githubRequest_eq.
  destruct (github w path token) as [answer|]; by repeat constructor.
Qed.

Lemma getSecurityAlerts_fetch w r token :
  Forall fetch_event (trace (Security.getSecurityAlerts w r token)).
Proof.
  apply try_catch_Forall.
  - apply bind_Forall; [apply security_githubRequest_fetch|]. intros alerts.
    destruct (negb (truthy alerts)); [done|].
    destruct alerts as [| | | |items|]; try done. by destruct (mapM _ _).
  - intros e. by repeat constructor.
Qed.

Lemma check_repo_fetch w token r :
  Forall fetch_event (trace (Security.check_repo w token r)).
Proof.
  rewrite /Security.check_repo.
  apply bind_Forall; [by repeat constructor|]. intros _.
  apply bind_Forall.
  { apply getPackageJson_fetch. intros path. apply security_githubRequest_fetch. }
  intros packageJson. apply bind_Forall; [by repeat constructor|]. intros _.
  apply bind_Forall; [apply getSecurityAlerts_fetch|]. intros alerts.
  apply bind_Forall; [by repeat constructor|]. intros _.
  destruct (truthy packageJson); [|done].
  apply bind_Forall; [apply checkOutdatedPackages_fetch|]. intros o.
  apply bind_Forall; [by repeat constructor|done].
Qed.

Lemma security_loop_fetch w token rs results :
  Forall fetch_event (trace (Security.for_each_repo w token rs results)).
Proof.
  revert results. induction rs as [|r rs IH]; intros results; [done|].
  apply bind_Forall; [apply check_repo_fetch|done].
Qed.

Lemma basic_loop_fetch w token rs results :
  Forall fetch_event (trace (Basic.for_each_repo w token rs results)).
Proof.
  revert results. induction rs as [|r rs IH]; intros results; [done|].
  apply bind_Forall; [by repeat constructor|]. intros _.
  apply bind_Forall.
  { apply getPackageJson_fetch. intros path. apply basic_githubRequest_fetch. }
  intros packageJson. destruct (truthy packageJson); [|done].
  apply bind_Forall; [apply checkOutdatedPackages_fetch|]. intros o.
  apply bind_Forall; [by repeat constructor|done].
Qed.

(** ** The orchestrator *)

Lemma after_loop {R B} (a b : Event) (s : R → Event) (t : list Event)
    (results : R) (k : R → M B) :
  (emit a;;; emit b;;; let* rs := (t, Resolved results) in emit (s rs);;; k rs) =
  bind ([a; b] ++ t ++ [s results], Resolved tt) (λ _, k results).
Proof.
  simpl. destruct (k results) as [t' c]. by rewrite /= -app_assoc.
Qed.

Lemma claude_response_trace w p apiKey :
  trace (claude_response w p apiKey) = [ClaudePost p].
Proof.
  rewrite /claude_response trace_bind /=.
  destruct (anthropic w p apiKey) as [| |s [response|]]; try done;
    destruct (s =? 200); try done.
  by destruct (_ ≫= _).
Qed.

Lemma claude_response_failure w p apiKey s data :
  anthropic w p apiKey = Response s data → s ≠ 200 →
  claude_response w p apiKey = ([ClaudePost p], Rejected (ClaudeApiError s)).
Proof.
  intros Hr Hs%Nat.eqb_neq. by rewrite /claude_response Hr Hs.
Qed.

Lemma sendMail_eq w m :
  sendMail w m =
  ([SendMail m], if relay_accepts w m then Resolved tt else Rejected SendMailError).
Proof. rewrite /sendMail /=. by destruct (relay_accepts w m). Qed.

Arguments bind : simpl never.

Lemma security_main_after_loop w token t results :
  GH_TOKEN w = Some token → present (GH_TOKEN w) = true →
  Security.for_each_repo w token (repos w) [] = (t, Resolved results) →
  Forall fetch_event (security_pre t results) ∧
  Security.main w =
  bind (security_pre t results, Resolved tt)
    (λ _, if (Security.totalVulnerabilities_of results =? 0) &&
             (Security.totalOutdated_of results =? 0)
          then Security.all_clean w
          else Security.needs_analysis w results).
Proof.
  intros Htoken Hpresent Hloop. split.
  - pose proof (security_loop_fetch w token (repos w) []) as Ht.
    rewrite Hloop in Ht. rewrite /security_pre.
    repeat (apply Forall_app; split); by repeat constructor.
  - rewrite /Security.main. rewrite Htoken in Hpresent |- *.
    rewrite Hpresent Hloop.
    apply (after_loop _ _ summary_line).
Qed.

Lemma security_all_clean_eq w :
  Security.all_clean w =
  ([Log AllUpToDate; SendMail (Security.all_clean_mail w)],
   if relay_accepts w (Security.all_clean_mail w) then Resolved tt
   else Rejected SendMailError).
Proof.
  rewrite /Security.all_clean sendMail_eq /bind /=. by destruct (relay_accepts _ _).
Qed.

Lemma security_sendEmail_mails w analysis results m :
  m ∈ mails (trace (Security.sendEmail w analysis results (GMAIL_USER w)
                      (GMAIL_APP_PASSWORD w) (RECIPIENT_EMAIL w))) →
  ∃ text, m = Security.mailOptions (GMAIL_USER w) (RECIPIENT_EMAIL w) text results.
Proof.
  rewrite /Security.sendEmail.
  destruct analysis as [[| | |text| |]|]; try by intros ?%elem_of_nil.
  destruct (Security.all_severities_strings results); [|by intros ?%elem_of_nil].
  rewrite sendMail_eq /=. intros ->%list_elem_of_singleton. by exists text.
Qed.

Lemma security_analyze_trace w results apiKey :
  mails (trace (Security.analyzeWithClaude w results apiKey)) = [].
Proof.
  rewrite /Security.analyzeWithClaude.
  destruct (Security.all_severities_strings results); [|done].
  by rewrite claude_response_trace.
Qed.

Lemma security_needs_analysis_mails w results m :
  m ∈ mails (trace (Security.needs_analysis w results)) →
  ∃ text, m = Security.mailOptions (GMAIL_USER w) (RECIPIENT_EMAIL w) text results.
Proof.
  rewrite /Security.needs_analysis !trace_bind !mails_app /=.
  rewrite security_analyze_trace /=.
  destruct (completion (Security.analyzeWithClaude _ _ _)) as [analysis|e|e|n|];
    try by intros ?%elem_of_nil.
  rewrite !trace_bind !mails_app /=.
  destruct (completion (Security.sendEmail _ _ _ _ _ _));
    rewrite /= ?app_nil_r; apply security_sendEmail_mails.
Qed.


Lemma top_level_mails m : mails (trace (top_level m)) = mails (trace m).
Proof.
  rewrite /top_level trace_try_catch mails_app.
  destruct (completion m); by rewrite /= app_nil_r.
Qed.

Lemma top_level_prompts m : prompts (trace (top_level m)) = prompts (trace m).
Proof.
  rewrite /top_level trace_try_catch prompts_app.
  destruct (completion m); by rewrite /= app_nil_r.
Qed.

Lemma top_level_completion m :
  completion (top_level m) =
  match completion m with Rejected _ => Exited 1 | c => c end.
Proof. rewrite /top_level completion_try_catch. by destruct (completion m). Qed.


(** The earlier revision, in the same steps. *)

Lemma after_loop_plain {R B} (a b : Event) (t : list Event) (results : R)
    (k : R → M B) :
  (emit a;;; emit b;;; let* rs := (t, Resolved results) in k rs) =
  bind ([a; b] ++ t, Resolved tt) (λ _, k results).
Proof. rewrite /emit /bind /=. by destruct (k results). Qed.

Lemma basic_main_after_loop w token t results :
  GH_TOKEN w = Some token → present (GH_TOKEN w) = true →
  Basic.for_each_repo w token (repos w) [] = (t, Resolved results) →
  Forall fetch_event ([Log CheckingEnvironment; Log Starting] ++ t) ∧
  Basic.main w =
  bind ([Log CheckingEnvironment; Log Starting] ++ t, Resolved tt)
    (λ _, if totalOutdated_of results =? 0 then Basic.all_clean w
          else Basic.needs_analysis w results).
Proof.
  intros Htoken Hpresent Hloop. split.
  - pose proof (basic_loop_fetch w token (repos w) []) as Ht.
    rewrite Hloop in Ht. apply Forall_app; split; by repeat constructor.
  - rewrite /Basic.main. rewrite Htoken in Hpresent |- *.
    rewrite Hpresent Hloop. apply after_loop_plain.
Qed.


Arguments Basic.analyzeWithClaude : simpl never.







(** ** Failure of the summarizer *)

Lemma security_main_no_token w :
  present (GH_TOKEN w) = false →
  Security.main w = ([Log CheckingEnvironment; Log TokenNotSet], Exited 1).
Proof.
  rewrite /Security.main. destruct (GH_TOKEN w) as [token|]; [|done].
  by intros ->.
Qed.

Lemma security_main_trace w token :
  GH_TOKEN w = Some token → present (GH_TOKEN w) = true →
  trace (Security.main w) =
  [Log CheckingEnvironment; Log Starting] ++
  trace (Security.for_each_repo w token (repos w) []) ++
  match completion (Security.for_each_repo w token (repos w) []) with
  | Resolved results =>
      summary_line results ::
      trace (if (Security.totalVulnerabilities_of results =? 0) &&
                (Security.totalOutdated_of results =? 0)
             then Security.all_clean w
             else Security.needs_analysis w results)
  | _ => []
  end.
Proof.
  intros Htoken Hpresent.
  destruct (Security.for_each_repo w token (repos w) []) as [t c] eqn:Hloop.
  destruct c as [results|e|e|n|].
  - destruct (security_main_after_loop _ _ _ _ Htoken Hpresent Hloop) as [_ ->].
    rewrite !trace_bind /security_pre /trace /= -!app_assoc //.
  - rewrite /Security.main. rewrite Htoken in Hpresent |- *.
    by rewrite Hpresent Hloop /trace /= app_nil_r.
  - rewrite /Security.main. rewrite Htoken in Hpresent |- *.
    by rewrite Hpresent Hloop /trace /= app_nil_r.
  - rewrite /Security.main. rewrite Htoken in Hpresent |- *.
    by rewrite Hpresent Hloop /trace /= app_nil_r.
  - rewrite /Security.main. rewrite Htoken in Hpresent |- *.
    by rewrite Hpresent Hloop /trace /= app_nil_r.
Qed.

Lemma security_needs_analysis_prompts w results p :
  p ∈ prompts (trace (Security.needs_analysis w results)) →
  Security.all_severities_strings results = true ∧ p = SecurityPrompt results.
Proof.
  rewrite /Security.needs_analysis trace_bind /= trace_bind prompts_app.
  rewrite /Security.analyzeWithClaude.
  destruct (Security.all_severities_strings results); [|by intros ?%elem_of_nil].
  rewrite claude_response_trace /=.
  destruct (completion (claude_response _ _ _)) as [analysis|e|e|n|];
    try (intros ->%list_elem_of_singleton; done).
  rewrite trace_bind /= trace_bind prompts_app /Security.sendEmail.
  assert (Hquiet : prompts (trace (Security.sendEmail w analysis results
            (GMAIL_USER w) (GMAIL_APP_PASSWORD w) (RECIPIENT_EMAIL w))) = []).
  { rewrite /Security.sendEmail.
    destruct analysis as [[| | |text| |]|]; try done.
    destruct (Security.all_severities_strings results); [|done].
    by rewrite sendMail_eq. }
  rewrite /Security.sendEmail in Hquiet. rewrite Hquiet /=.
  destruct (completion _); rewrite /= ?app_nil_r;
    intros ->%list_elem_of_singleton; done.
Qed.

Lemma security_prompts_inv w p :
  p ∈ prompts (trace (Security.run w)) →
  ∃ token t results,
    GH_TOKEN w = Some token ∧ present (GH_TOKEN w) = true ∧
    Security.for_each_repo w token (repos w) [] = (t, Resolved results) ∧
    Security.main w =
      bind (security_pre t results, Resolved tt)
        (λ _, Security.needs_analysis w results) ∧
    p = SecurityPrompt results.
Proof.
  rewrite /Security.run top_level_prompts.
  destruct (present (GH_TOKEN w)) eqn:Hpresent.
  2: { rewrite security_main_no_token //. by intros ?%elem_of_nil. }
  destruct (GH_TOKEN w) as [token|] eqn:Htoken; [|done].
  rewrite -Htoken in Hpresent.
  rewrite (security_main_trace _ _ Htoken Hpresent) !prompts_app /=.
  pose proof (security_loop_fetch w token (repos w) []) as Hfetch.
  destruct (fetch_events_quiet _ Hfetch) as [_ ->].
  destruct (Security.for_each_repo w token (repos w) []) as [t c] eqn:Hloop.
  destruct c as [results|e|e|n|]; try by intros ?%elem_of_nil.
  destruct (security_main_after_loop _ _ _ _ Htoken Hpresent Hloop) as [_ Hmain].
  rewrite /=. destruct (_ && _) eqn:Hcond.
  - rewrite security_all_clean_eq. by intros ?%elem_of_nil.
  - intros [_ ->]%security_needs_analysis_prompts.
    exists token, t, results. by rewrite Hmain.
Qed.

Lemma prompts_elem_of p t : ClaudePost p ∈ t ↔ p ∈ prompts t.
Proof.
  rewrite /prompts list_elem_of_omap. split.
  - intros Hin. by exists (ClaudePost p).
  - intros (e & Hin & He). destruct e; try done. by injection He as ->.
Qed.

Lemma top_level_after pre tm cm :
  top_level (bind (pre, Resolved tt) (λ _, (tm, cm))) =
  (pre ++ tm ++ match cm with Rejected e => [Log (FatalError e)] | _ => [] end,
   match cm with Rejected _ => Exited 1 | c => c end).
Proof.
  destruct cm; rewrite /top_level /bind /try_catch /= ?app_nil_r -?app_assoc //.
Qed.

(** C6.  When the summarizer's request was made and the completion
    endpoint answered it with a status other than 200, the run ends
    through the top-level rejection handler: the error is printed, the
    process exits with status 1, and no mail was handed to the relay. *)
Theorem summarizer_failure_aborts (w : World) (p : Prompt) (s : nat)
    (data : option JSON) :
  ClaudePost p ∈ trace (Security.run w) →
  anthropic w p (ANTHROPIC_API_KEY w) = Response s data →
  s ≠ 200 →
  completion (Security.run w) = Exited 1 ∧
  exit_status (completion (Security.run w)) = 1 ∧
  mails (trace (Security.run w)) = [] ∧
  Log (FatalError (ClaudeApiError s)) ∈ trace (Security.run w).
Proof.
  intros Hposted Hresponse Hstatus.
  apply prompts_elem_of in Hposted as Hp.
  apply security_prompts_inv in Hp
    as (token & t & results & Htoken & Hpresent & Hloop & Hmain & ->).
  destruct (security_main_after_loop _ _ _ _ Htoken Hpresent Hloop) as [Hpre _].
  destruct (fetch_events_quiet _ Hpre) as [Hmails _].
  assert (Hsev : Security.all_severities_strings results = true).
  { apply prompts_elem_of in Hposted. move: Hposted.
    rewrite /Security.run top_level_prompts Hmain trace_bind prompts_app.
    rewrite (proj2 (fetch_events_quiet _ Hpre)) /=.
    by intros [? _]%security_needs_analysis_prompts. }
  assert (Hbranch : Security.needs_analysis w results =
    ([Log Analyzing; ClaudePost (SecurityPrompt results)],
     Rejected (ClaudeApiError s))).
  { rewrite /Security.needs_analysis /Security.analyzeWithClaude Hsev.
    by rewrite (claude_response_failure _ _ _ _ _ Hresponse Hstatus). }
  rewrite /Security.run Hmain Hbranch top_level_after /trace /completion.
  cbn [fst snd]. split_and!; try done.
  - by rewrite mails_app Hmails.
  - set_solver.
Qed.

Lemma summarizer_failure_witness :
  completion (Security.run Example.overloaded_world) = Exited 1 ∧
  exit_status (completion (Security.run Example.overloaded_world)) = 1 ∧
  mails (trace (Security.run Example.overloaded_world)) = [] ∧
  Log (FatalError (ClaudeApiError 529)) ∈ trace (Security.run Example.overloaded_world).
Proof.
  apply (summarizer_failure_aborts Example.overloaded_world
           (SecurityPrompt [Example.left_pad_report]) 529
           (Some (JObj [("type", JStr "error")]))).
  - vm_compute. do 11 apply list_elem_of_further. apply list_elem_of_here.
  - reflexivity.
  - lia.
Defined.

(** ** A manifest that cannot be fetched *)






Lemma security_loop_resolved w token rs acc t results :
  Security.for_each_repo w token rs acc = (t, Resolved results) →
  ∃ reports, results = acc ++ reports ∧
    Forall2 (λ r rep,
      completion (Security.check_repo w token r) = Resolved rep ∧
      trace (Security.check_repo w token r) ⊆ t) rs reports.
Proof.
  revert acc t. induction rs as [|r rs IH]; intros acc t.
  { intros [= <- <-]. exists []. by rewrite app_nil_r. }
  change (Security.for_each_repo w token (r :: rs) acc) with
    (let* entry := Security.check_repo w token r in
     Security.for_each_repo w token rs (acc ++ [entry])).
  intros (t1 & entry & t2 & Hentry & Hrest & ->)%bind_resolved.
  apply IH in Hrest as (reports & -> & Hall).
  exists (entry :: reports). split; [by rewrite -app_assoc|].
  constructor.
  - rewrite Hentry. split; [done|]. set_solver.
  - eapply Forall2_impl; [done|]. intros r' rep' [? ?]. split; [done|]. set_solver.
Qed.

Lemma basic_loop_cons w token r rest acc :
  Basic.for_each_repo w token (r :: rest) acc =
  (emit (Log (Checking r));;;
   let* packageJson := getPackageJson Basic.githubRequest w r token in
   if truthy packageJson then
     let* o := checkOutdatedPackages w packageJson r in
     emit (Log (FoundOutdated (length (outdated o))));;;
     Basic.for_each_repo w token rest (acc ++ [o])
   else Basic.for_each_repo w token rest acc).
Proof. done. Qed.




(** ** The subject of the report *)

Lemma foldl_sum {A} (f : A → nat) (l : list A) (n : nat) :
  foldl (λ sum r, sum + f r) n l = n + sum_list (f <$> l).
Proof.
  revert n. induction l as [|x l IH]; intros n; csimpl; [lia|].
  rewrite IH. lia.
Qed.

Lemma no_vulnerabilities_no_critical results :
  Security.totalVulnerabilities_of results = 0 →
  Security.criticalSecurityIssues_of results = [].
Proof.
  rewrite /Security.totalVulnerabilities_of /Security.criticalSecurityIssues_of.
  rewrite foldl_sum /=.
  induction results as [|r results IH]; csimpl; [done|].
  intros Hsum. destruct (securityAlerts r); [|simpl in Hsum; lia].
  apply IH. simpl in Hsum. lia.
Qed.

Lemma critical_or_high_is_counted results r a :
  r ∈ results → a ∈ securityAlerts r →
  Security.is_critical_or_high a = true →
  a ∈ Security.criticalSecurityIssues_of results.
Proof.
  intros Hr Ha Hsev. rewrite /Security.criticalSecurityIssues_of.
  apply list_elem_of_In, in_flat_map. exists r.
  split; [by apply list_elem_of_In|].
  apply filter_In. split; [by apply list_elem_of_In|done].
Qed.

(** C5, as amended.  The subject follows the first condition that holds
    in the order: some alert of severity [critical] or [high]; some alert;
    some outdated package; none of these.  Alerts of severity [high] are
    in the top tier with the critical ones and are counted in its subject.
    In particular one alert of severity [critical] gives the security alert
    subject whatever the number of outdated packages, zero included. *)
Theorem subject_follows_priority (results : list RepositoryReport) :
  let critical := Security.criticalSecurityIssues_of results in
  let vulnerabilities := Security.totalVulnerabilities_of results in
  let outdatedPackages := Security.totalOutdated_of results in
  (critical ≠ [] →
     Security.subject_of results =
     "🚨 SECURITY ALERT: " +:+ Number_toString (length critical)
       +:+ " Critical Vulnerabilities") ∧
  (critical = [] → 0 < vulnerabilities →
     Security.subject_of results =
     "⚠️ Security Update: " +:+ Number_toString vulnerabilities
       +:+ " Vulnerabilities Found") ∧
  (vulnerabilities = 0 → 0 < outdatedPackages →
     Security.subject_of results =
     "📦 " +:+ Number_toString outdatedPackages +:+ " Package Updates Available") ∧
  (vulnerabilities = 0 → outdatedPackages = 0 →
     Security.subject_of results = "📦 Monthly Dependency Report") ∧
  (∀ r a, r ∈ results → a ∈ securityAlerts r →
     severity a = Some (JStr "critical") ∨ severity a = Some (JStr "high") →
     critical ≠ [] ∧
     Security.subject_of results =
     "🚨 SECURITY ALERT: " +:+ Number_toString (length critical)
       +:+ " Critical Vulnerabilities").
Proof.
  intros critical vulnerabilities outdatedPackages.
  assert (Htop : critical ≠ [] →
     Security.subject_of results =
     "🚨 SECURITY ALERT: " +:+ Number_toString (length critical)
       +:+ " Critical Vulnerabilities").
  { intros Hne. rewrite /Security.subject_of -/critical.
    destruct critical; [done|]. done. }
  assert (Hnone : vulnerabilities = 0 → critical = []).
  { apply no_vulnerabilities_no_critical. }
  split_and!.
  - done.
  - intros Hc Hv. rewrite /Security.subject_of -/critical -/vulnerabilities Hc /=.
    by apply Nat.ltb_lt in Hv as ->.
  - intros Hv Ho.
    rewrite /Security.subject_of -/critical -/vulnerabilities -/outdatedPackages.
    rewrite (Hnone Hv) Hv /=. by apply Nat.ltb_lt in Ho as ->.
  - intros Hv Ho.
    rewrite /Security.subject_of -/critical -/vulnerabilities -/outdatedPackages.
    by rewrite (Hnone Hv) Hv Ho.
  - intros r a Hr Ha Hsev.
    assert (Hin : a ∈ critical).
    { apply (critical_or_high_is_counted _ r); [done..|].
      rewrite /Security.is_critical_or_high. by destruct Hsev as [-> | ->]. }
    assert (critical ≠ []) by (intros Hnil; rewrite Hnil in Hin; set_solver).
    by split; [|apply Htop].
Qed.

Lemma subject_follows_priority_witness :
  Security.subject_of Example.critical_results =
    "🚨 SECURITY ALERT: 1 Critical Vulnerabilities" ∧
  Security.totalOutdated_of Example.critical_results = 0 ∧
  Security.subject_of [Example.left_pad_report] = "📦 1 Package Updates Available".
Proof.
  split_and!; [|reflexivity|].
  - destruct (subject_follows_priority Example.critical_results)
      as (_ & _ & _ & _ & Hparticular).
    destruct (Hparticular Example.critical_report Example.critical_alert_record)
      as [_ Hsubject]; [set_solver|set_solver|by left|exact Hsubject].
  - destruct (subject_follows_priority [Example.left_pad_report])
      as (_ & _ & Houtdated & _).
    apply Houtdated; [reflexivity|by apply Nat.ltb_lt].
Defined.

(** C5 as stated fails when the most severe alert is of severity [high]:
    with one such alert and no critical one, the subject is already the
    one of the top tier, and counts the alert as critical. *)
Lemma subject_counts_high_as_critical :
  Security.subject_of [Example.high_report] =
    "🚨 SECURITY ALERT: 1 Critical Vulnerabilities" ∧
  severity <$> flat_map securityAlerts [Example.high_report] =
    [Some (JStr "high")] ∧
  Security.totalVulnerabilities_of [Example.high_report] = 1 ∧
  subject <$> mails (trace (Security.run Example.no_manifest_world)) =
    ["🚨 SECURITY ALERT: 1 Critical Vulnerabilities"].
Proof. split_and!; reflexivity. Qed.

(** ** The registry client at a response it cannot read *)

(** A response with status 200 whose text is not JSON, or whose document
    has no [dist-tags], makes the response callback throw. *)
Lemma getNpmPackageInfo_uncaught w name data :
  registry w name = Response 200 data →
  match data with
  | None => True
  | Some pkg => get_field (Some pkg) "dist-tags" = Some undefined ∨
                get_field (Some pkg) "dist-tags" = None
  end →
  ∃ e, getNpmPackageInfo w name = ([RegistryGet name], Uncaught e).
Proof.
  rewrite /getNpmPackageInfo. intros ->. destruct data as [pkg|].
  - intros [Hd|Hd]; exists TypeError; by rewrite Nat.eqb_refl Hd.
  - intros _. by exists SyntaxError.
Qed.

(** C4, at the input where it fails.  The registry answers the lookup of
    [left-pad] with status 200 and a document without [dist-tags] (the
    document of an unpublished package).  The response callback of the
    registry client then throws a [TypeError] that nothing catches: the
    lookup neither resolves to [null] nor is rejected, and the process of
    either revision ends there, with exit status 1 and no mail.  (The
    request error and the statuses other than 200 do resolve to [null]:
    X1 below.) *)
Theorem registry_client_throws_without_dist_tags :
  getNpmPackageInfo Example.unpublished_world "left-pad" =
    ([RegistryGet "left-pad"], Uncaught TypeError) ∧
  completion (Security.run Example.unpublished_world) = Uncaught TypeError ∧
  exit_status (completion (Security.run Example.unpublished_world)) = 1 ∧
  mails (trace (Security.run Example.unpublished_world)) = [] ∧
  completion (Basic.run Example.unpublished_world) = Uncaught TypeError.
Proof. split_and!; reflexivity. Qed.

(** ** Further properties *)

(** X1.  A request to the registry that fails, or that is answered with a
    status other than 200, resolves to [null]; and whatever the registry
    does, the promise of the registry client is not rejected. *)
Theorem registry_failure_resolves_to_null (w : World) (name : string) :
  ((registry w name = RequestFailed ∨
    ∃ s data, registry w name = Response s data ∧ s ≠ 200) →
   getNpmPackageInfo w name = ([RegistryGet name], Resolved None)) ∧
  (∀ e, completion (getNpmPackageInfo w name) ≠ Rejected e).
Proof.
  split; [apply getNpmPackageInfo_failure|apply getNpmPackageInfo_not_rejected].
Qed.

Lemma registry_failure_witness :
  getNpmPackageInfo Example.outdated_world "private-package" =
  ([RegistryGet "private-package"], Resolved None).
Proof.
  apply (registry_failure_resolves_to_null Example.outdated_world "private-package").
  right. exists 404, (Some (JObj [("message", JStr "Not Found")])).
  split; [reflexivity|lia].
Defined.

(** X2.  The records of a report follow the iteration order of the merged
    mapping: their package names are a subsequence of its keys. *)
Theorem outdated_follows_iteration_order (w : World) (packageJson : JSON)
    (repoName : string) (t : list Event) (rep : OutdatedReport) :
  checkOutdatedPackages w packageJson repoName = (t, Resolved rep) →
  package <$> outdated rep `sublist_of` Object_keys (dependencies_of packageJson).
Proof.
  intros [-> _]%checkOutdatedPackages_resolved. apply omap_record_for_sublist.
Qed.

Lemma outdated_follows_iteration_order_witness :
  ["left-pad"] `sublist_of` ["left-pad"; "lodash"; "jest"] ∧
  ["left-pad"; "jest"] `sublist_of` ["left-pad"; "lodash"; "jest"].
Proof.
  split.
  - apply (outdated_follows_iteration_order Example.outdated_world
             Example.two_group_manifest "acme/app" _ _ eq_refl).
  - apply (outdated_follows_iteration_order Example.two_package_world
             Example.two_group_manifest "acme/app" _ _ eq_refl).
Defined.

Lemma security_check_repo_name w token r rep :
  completion (Security.check_repo w token r) = Resolved rep →
  repo (report rep) = r.
Proof.
  rewrite /Security.check_repo !completion_bind /=.
  destruct (completion (getPackageJson _ _ _ _)) as [packageJson| | | |]; try done.
  rewrite !completion_bind /=.
  destruct (completion (Security.getSecurityAlerts _ _ _)) as [alerts| | | |];
    try done.
  rewrite !completion_bind /=.
  destruct (truthy packageJson); [|by intros [= <-]].
  rewrite completion_bind.
  destruct (checkOutdatedPackages w packageJson r) as [t c] eqn:Hcheck.
  destruct c as [o| | | |]; try done.
  apply checkOutdatedPackages_resolved in Hcheck as [-> _].
  rewrite /completion /emit /bind /=. by intros [= <-].
Qed.

(** X3.  When the loop of the later [main] returns, the results hold one
    report per configured repository, in the configured order. *)
Theorem one_report_per_repository (w : World) (token : string)
    (t : list Event) (results : list RepositoryReport) :
  Security.for_each_repo w token (repos w) [] = (t, Resolved results) →
  (λ entry, repo (report entry)) <$> results = repos w.
Proof.
  intros (reports & -> & Hall)%security_loop_resolved. simpl.
  move: Hall. generalize (repos w). intros rs Hall.
  induction Hall as [|r rep rs reports [Hrep _] _ IH]; csimpl; [done|].
  by rewrite (security_check_repo_name _ _ _ _ Hrep) IH.
Qed.

Lemma one_report_per_repository_witness :
  (λ entry, repo (report entry)) <$> [Example.high_report] = ["acme/app"] ∧
  (λ entry, repo (report entry)) <$>
    [empty_report "acme/app"; empty_report "acme/site"] =
  ["acme/app"; "acme/site"].
Proof.
  split.
  - apply (one_report_per_repository Example.no_manifest_world "ghp_example"
             _ _ eq_refl).
  - apply (one_report_per_repository Example.unauthorized_world "ghp_expired"
             _ _ eq_refl).
Defined.

(** X4.  Without the repository-access token, both revisions print the
    error and exit with status 1 before any request. *)
Theorem missing_token_is_fatal (w : World) :
  present (GH_TOKEN w) = false →
  Security.run w = ([Log CheckingEnvironment; Log TokenNotSet], Exited 1) ∧
  Basic.run w = ([Log CheckingEnvironment; Log TokenNotSet], Exited 1).
Proof.
  intros Hmissing. rewrite /Security.run /Basic.run /Security.main /Basic.main.
  destruct (GH_TOKEN w) as [token|]; [|done].
  by rewrite Hmissing.
Qed.

Lemma missing_token_witness :
  Security.run
    {| repos := ["acme/app"]; GH_TOKEN := None; ANTHROPIC_API_KEY := None;
       GMAIL_USER := None; GMAIL_APP_PASSWORD := None; RECIPIENT_EMAIL := None;
       github_host := λ _ _, RequestFailed; registry := λ _, RequestFailed;
       anthropic := λ _ _, RequestFailed; decode_manifest := Example.decode;
       relay_accepts := λ _, false |} =
  ([Log CheckingEnvironment; Log TokenNotSet], Exited 1).
Proof.
  by apply (missing_token_is_fatal
    {| repos := ["acme/app"]; GH_TOKEN := None; ANTHROPIC_API_KEY := None;
       GMAIL_USER := None; GMAIL_APP_PASSWORD := None; RECIPIENT_EMAIL := None;
       github_host := λ _ _, RequestFailed; registry := λ _, RequestFailed;
       anthropic := λ _ _, RequestFailed; decode_manifest := Example.decode;
       relay_accepts := λ _, false |}).
Defined.

(** ** The repository client and its two callers *)

Lemma getSecurityAlerts_unfold w r token :
  Security.getSecurityAlerts w r token =
  try_catch
    (let* alerts := Security.githubRequest w (alerts_path r) token in
     if negb (truthy alerts) then ret []
     else
       match alerts with
       | JArr items =>
           match mapM Security.alert_of items with
           | Some mapped => ret mapped
           | None => reject TypeError
           end
       | _ => reject TypeError
       end)
    (λ error, emit (Log (CouldNotFetchAlerts r error));;; ret []).
Proof. done. Qed.

Lemma getSecurityAlerts_cases w r token :
  (∃ alerts, Security.getSecurityAlerts w r token =
             ([GitHubGet (alerts_path r)], Resolved alerts)) ∨
  (∃ e, Security.getSecurityAlerts w r token =
        ((GitHubGet <$> sent w token (alerts_path r)) ++
           [Log (CouldNotFetchAlerts r e)],
         Resolved [])) ∨
  Security.getSecurityAlerts w r token =
    ([GitHubGet (alerts_path r)], Uncaught SyntaxError) ∨
  Security.getSecurityAlerts w r token = ([GitHubGet (alerts_path r)], Pending).
Proof.
  rewrite getSecurityAlerts_unfold security_githubRequest_eq /sent.
  destruct (github w _ token) as [[| |s [alerts|]]|].
  - right; left. by exists RequestError.
  - by right; right; right.
  - destruct (s =? 200).
    + rewrite /bind /try_catch /emit /=. destruct (negb (truthy alerts)).
      { left. by exists []. }
      destruct alerts as [| | | |items|];
        try (right; left; by exists TypeError).
      destruct (mapM Security.alert_of items) as [mapped|].
      * left. by exists mapped.
      * right; left. by exists TypeError.
    + destruct (s =? 404); [left; by exists []|].
      right; left. by exists (GitHubApiError s).
  - destruct (s =? 200); [by right; right; left|].
    destruct (s =? 404); [left; by exists []|].
    right; left. by exists (GitHubApiError s).
  - right; left. by exists TypeError.
Qed.

Lemma github_gets_sent t l :
  github_gets t = [] → github_gets ((GitHubGet <$> l) ++ t) = l.
Proof.
  intros Ht. rewrite /github_gets omap_app -/(github_gets t) Ht app_nil_r.
  induction l as [|path l IH]; csimpl; by rewrite ?IH.
Qed.

Lemma getSecurityAlerts_github_gets w r token :
  github_gets (trace (Security.getSecurityAlerts w r token)) =
  sent w token (alerts_path r).
Proof.
  rewrite getSecurityAlerts_unfold trace_try_catch security_githubRequest_eq.
  rewrite trace_bind completion_bind /sent.
  destruct (github w _ token) as [[| |s [alerts|]]|]; try done.
  - destruct (s =? 200); [|by destruct (s =? 404)].
    simpl. destruct (negb (truthy alerts)); [done|].
    destruct alerts as [| | | |items|]; try done.
    by destruct (mapM Security.alert_of items).
  - destruct (s =? 200); [done|]. by destruct (s =? 404).
Qed.

(** X5.  [getSecurityAlerts] sends at most one request, and its promise
    is never rejected.  It sends one unless the call of [https.get]
    throws, as it does on a path or a token with a character that a
    request may not hold (a repository name with a space); then it sends
    none.  A request that cannot be sent, or fails, or is answered with a
    status other than 200 and 404, is printed and gives the empty list;
    status 404 gives the empty list with nothing printed. *)
Theorem security_alerts_fail_softly (w : World) (r token : string) :
  (∀ e, completion (Security.getSecurityAlerts w r token) ≠ Rejected e) ∧
  github_gets (trace (Security.getSecurityAlerts w r token)) =
    (if request_path_ok (alerts_path r) && header_value_ok ("token " +:+ token)
     then [alerts_path r] else []) ∧
  ((github w (alerts_path r) token = None ∨
    github w (alerts_path r) token = Some RequestFailed ∨
    ∃ s data, github w (alerts_path r) token = Some (Response s data) ∧
              s ≠ 200 ∧ s ≠ 404) →
   ∃ e, Security.getSecurityAlerts w r token =
        ((GitHubGet <$> sent w token (alerts_path r)) ++
           [Log (CouldNotFetchAlerts r e)],
         Resolved [])) ∧
  (∀ data, github w (alerts_path r) token = Some (Response 404 data) →
     Security.getSecurityAlerts w r token =
     ([GitHubGet (alerts_path r)], Resolved [])).
Proof.
  split_and!.
  - intros e.
    by destruct (getSecurityAlerts_cases w r token)
      as [[alerts ->]|[[e' ->]|[->| ->]]].
  - rewrite getSecurityAlerts_github_gets /sent /github.
    by destruct (_ && _).
  - rewrite getSecurityAlerts_unfold security_githubRequest_eq /sent.
    intros [->|[->|(s & data & -> & Hs & Hs')]].
    + by exists TypeError.
    + by exists RequestError.
    + apply Nat.eqb_neq in Hs, Hs'. rewrite Hs Hs'. by exists (GitHubApiError s).
  - intros data Hdata.
    by rewrite getSecurityAlerts_unfold security_githubRequest_eq Hdata.
Qed.

Lemma security_alerts_fail_softly_witness :
  (∃ e, Security.getSecurityAlerts Example.unauthorized_world "acme/app"
          "ghp_expired" =
        ([GitHubGet (alerts_path "acme/app");
          Log (CouldNotFetchAlerts "acme/app" e)], Resolved [])) ∧
  (∃ e, Security.getSecurityAlerts Example.outdated_world "acme/my app"
          "ghp_example" =
        ([Log (CouldNotFetchAlerts "acme/my app" e)], Resolved [])) ∧
  Security.getSecurityAlerts Example.outdated_world "acme/site" "ghp_example" =
  ([GitHubGet (alerts_path "acme/site")], Resolved []).
Proof.
  split_and!.
  - apply (security_alerts_fail_softly Example.unauthorized_world "acme/app"
             "ghp_expired").
    right; right. eexists 401, _. split_and!; [reflexivity|lia|lia].
  - apply (security_alerts_fail_softly Example.outdated_world "acme/my app"
             "ghp_example").
    by left.
  - by eapply (security_alerts_fail_softly Example.outdated_world "acme/site"
                 "ghp_example").
Defined.

(** *** The callback of [alerts.map] *)

Section alert_of.
#[local] Arguments get_field : simpl never.
#[local] Arguments field : simpl never.
#[local] Arguments readable : simpl never.

Lemma get_field_is_Some v k : is_Some (get_field v k) ↔ readable v = true.
Proof.
  destruct v as [[]|]; simpl; split; try done; by intros [? [=]].
Qed.

Lemma get_field_field v k : readable v = true → get_field v k = Some (field v k).
Proof. rewrite /field. by destruct v as [[]|]. Qed.

Lemma get_field_unreadable v k : readable v = false → get_field v k = None.
Proof. by destruct v as [[]|]. Qed.

Lemma field_unreadable v k : readable v = false → field v k = undefined.
Proof. rewrite /field. by intros ->%(get_field_unreadable _ k). Qed.

Lemma alert_of_is_Some alert :
  is_Some (Security.alert_of alert) ↔ alert_readable alert = true.
Proof.
  rewrite /alert_readable /Security.alert_of.
  destruct (readable (Some alert)) eqn:Ha; simpl.
  2: { rewrite !(get_field_unreadable _ _ Ha) /=. split; [by intros [? [=]]|done]. }
  rewrite !(get_field_field _ _ Ha) /=.
  destruct (readable (field (Some alert) "security_vulnerability")) eqn:Hv; simpl.
  2: { rewrite !(get_field_unreadable _ _ Hv) /=. split; [by intros [? [=]]|done]. }
  rewrite !(get_field_field _ _ Hv) /=.
  destruct (readable (field (field (Some alert) "security_vulnerability")
                        "package")) eqn:Hp; simpl.
  2: { rewrite !(get_field_unreadable _ _ Hp) /=. split; [by intros [? [=]]|done]. }
  rewrite !(get_field_field _ _ Hp) /=.
  destruct (readable (field (Some alert) "security_advisory")) eqn:Hs; simpl.
  2: { rewrite !(get_field_unreadable _ _ Hs) /=. split; [by intros [? [=]]|done]. }
  rewrite !(get_field_field _ _ Hs) /=. split; [done|]. by eexists.
Qed.

Lemma alert_of_severity alert a :
  Security.alert_of alert = Some a →
  severity a = field (field (Some alert) "security_advisory") "severity" ∧
  alert_package a =
    field (field (field (Some alert) "security_vulnerability") "package") "name".
Proof.
  intros Ha. assert (Hr : alert_readable alert = true).
  { apply alert_of_is_Some. by eexists. }
  move: Hr Ha. rewrite /alert_readable !andb_true_iff /Security.alert_of.
  intros [[[Ha Hv] Hp] Hs].
  rewrite !(get_field_field _ _ Ha) /= !(get_field_field _ _ Hv) /=.
  rewrite !(get_field_field _ _ Hp) /= !(get_field_field _ _ Hs) /=.
  by intros [= <-].
Qed.

End alert_of.

Lemma mapM_alert_of items :
  (forallb alert_readable items = true →
   ∃ alerts, mapM Security.alert_of items = Some alerts ∧
     Forall2 (λ item a, Security.alert_of item = Some a) items alerts) ∧
  (forallb alert_readable items = false → mapM Security.alert_of items = None).
Proof.
  induction items as [|item items [IHt IHf]]; simpl.
  { split; [|done]. intros _. exists []. split; [done|constructor]. }
  destruct (alert_readable item) eqn:Hitem; simpl.
  - apply alert_of_is_Some in Hitem as [a Ha]. rewrite Ha /=. split.
    + intros (alerts & -> & Hall)%IHt. exists (a :: alerts).
      split; [done|]. by constructor.
    + by intros ->%IHf.
  - split; [done|]. intros _.
    destruct (Security.alert_of item) eqn:Ha; [|done].
    assert (alert_readable item = true) by (apply alert_of_is_Some; by eexists).
    congruence.
Qed.

(** X6.  The alerts of a repository are mapped all or none.  When the host
    answers with an array, every element of which can be read from down to
    [security_vulnerability.package] and [security_advisory],
    [getSecurityAlerts] returns one record per element, in order, with the
    advisory's [severity] and the package's [name] (or [undefined] where
    the answer lacks them).  When one element cannot, the [TypeError] is
    printed and the list of this repository is empty: the other alerts
    are lost with it. *)
Theorem alerts_are_mapped_all_or_none (w : World) (r token : string)
    (items : list JSON) :
  github w (alerts_path r) token = Some (Response 200 (Some (JArr items))) →
  (forallb alert_readable items = true →
   ∃ alerts,
     Security.getSecurityAlerts w r token =
       ([GitHubGet (alerts_path r)], Resolved alerts) ∧
     Forall2 (λ item a,
       severity a = field (field (Some item) "security_advisory") "severity" ∧
       alert_package a =
         field (field (field (Some item) "security_vulnerability") "package")
           "name") items alerts) ∧
  (forallb alert_readable items = false →
   Security.getSecurityAlerts w r token =
   ([GitHubGet (alerts_path r); Log (CouldNotFetchAlerts r TypeError)],
    Resolved [])).
Proof.
  intros Hanswer.
  rewrite getSecurityAlerts_unfold security_githubRequest_eq Hanswer /=.
  destruct (mapM_alert_of items) as [Hall Hone]. split.
  - intros (alerts & Hmap & Hrecords)%Hall. exists alerts.
    rewrite /bind /= Hmap. split; [done|].
    eapply Forall2_impl; [done|]. apply alert_of_severity.
  - intros Hbad%Hone. by rewrite /bind /= Hbad.
Qed.

Lemma alerts_are_mapped_all_or_none_witness :
  (∃ alerts,
     Security.getSecurityAlerts Example.no_manifest_world "acme/app"
       "ghp_example" =
       ([GitHubGet (alerts_path "acme/app")], Resolved alerts) ∧
     Forall2 (λ item a,
       severity a = field (field (Some item) "security_advisory") "severity" ∧
       alert_package a =
         field (field (field (Some item) "security_vulnerability") "package")
           "name") [Example.high_alert] alerts) ∧
  Security.getSecurityAlerts Example.bare_alert_world "acme/app" "ghp_example" =
  ([GitHubGet (alerts_path "acme/app");
    Log (CouldNotFetchAlerts "acme/app" TypeError)], Resolved []).
Proof.
  split.
  - by apply (alerts_are_mapped_all_or_none Example.no_manifest_world "acme/app"
                "ghp_example" [Example.high_alert]).
  - by apply (alerts_are_mapped_all_or_none Example.bare_alert_world "acme/app"
                "ghp_example" [Example.high_alert; Example.bare_alert]).
Defined.

(** *** The manifest *)

Lemma getPackageJson_not_rejected gr w r token e :
  completion (getPackageJson gr w r token) ≠ Rejected e.
Proof.
  rewrite /getPackageJson completion_try_catch.
  by destruct (completion (let* content := gr w _ token in _)).
Qed.

(** X7.  In both revisions [getPackageJson] is never rejected.  When the
    host answers 200 with a [content] that decodes, it resolves to the
    decoded manifest and prints nothing.  A manifest the host does not
    have (status 404) gives [null] in both, but the console line differs:
    the earlier revision prints the API error with the status, the later
    one, whose [githubRequest] resolves to [null] on 404, prints the
    [TypeError] of reading [content] of [null]. *)
Theorem manifest_fetch_is_never_rejected (w : World) (r token : string) :
  (∀ e, completion (getPackageJson Basic.githubRequest w r token) ≠ Rejected e) ∧
  (∀ e, completion (getPackageJson Security.githubRequest w r token)
        ≠ Rejected e) ∧
  (∀ answer c packageJson,
     github w (package_json_path r) token = Some (Response 200 (Some answer)) →
     get_field (Some answer) "content" = Some c →
     decode_manifest w c = inr packageJson →
     getPackageJson Basic.githubRequest w r token =
       ([GitHubGet (package_json_path r)], Resolved packageJson) ∧
     getPackageJson Security.githubRequest w r token =
       ([GitHubGet (package_json_path r)], Resolved packageJson)) ∧
  (∀ data,
     github w (package_json_path r) token = Some (Response 404 data) →
     getPackageJson Basic.githubRequest w r token =
       ([GitHubGet (package_json_path r);
         Log (CouldNotFetchPackageJson r (GitHubApiError 404))], Resolved JNull) ∧
     getPackageJson Security.githubRequest w r token =
       ([GitHubGet (package_json_path r);
         Log (CouldNotFetchPackageJson r TypeError)], Resolved JNull)).
Proof.
  split_and!; try apply getPackageJson_not_rejected.
  - intros answer c packageJson Hanswer Hc Hdecode.
    rewrite /getPackageJson basic_githubRequest_eq security_githubRequest_eq.
    rewrite Hanswer /try_catch /bind. cbn -[get_field].
    by rewrite Hc Hdecode.
  - intros data Hanswer.
    rewrite /getPackageJson basic_githubRequest_eq security_githubRequest_eq.
    by rewrite Hanswer.
Qed.

Lemma manifest_fetch_witness :
  getPackageJson Security.githubRequest Example.outdated_world "acme/app"
    "ghp_example" =
  ([GitHubGet (package_json_path "acme/app")], Resolved Example.left_pad_manifest) ∧
  getPackageJson Basic.githubRequest Example.no_manifest_world "acme/app"
    "ghp_example" =
  ([GitHubGet (package_json_path "acme/app");
    Log (CouldNotFetchPackageJson "acme/app" (GitHubApiError 404))],
   Resolved JNull) ∧
  getPackageJson Security.githubRequest Example.no_manifest_world "acme/app"
    "ghp_example" =
  ([GitHubGet (package_json_path "acme/app");
    Log (CouldNotFetchPackageJson "acme/app" TypeError)], Resolved JNull).
Proof.
  destruct (manifest_fetch_is_never_rejected Example.outdated_world "acme/app"
              "ghp_example") as (_ & _ & Hdecoded & _).
  destruct (manifest_fetch_is_never_rejected Example.no_manifest_world
              "acme/app" "ghp_example") as (_ & _ & _ & Hmissing).
  split_and!.
  - by eapply Hdecoded.
  - by eapply Hmissing.
  - by eapply Hmissing.
Defined.

(** ** The lookups of the comparator *)

Lemma registry_gets_lookups (es : Props) :
  registry_gets ((λ e, RegistryGet e.1) <$> es) = es.*1.
Proof. induction es as [|[name v] es IH]; csimpl; by rewrite ?IH. Qed.

Lemma check_entries_lookups w es acc :
  registry_gets (trace (check_entries w es acc)) `prefix_of` es.*1.
Proof.
  revert acc. induction es as [|[name version] es IH]; intros acc.
  { by exists []. }
  destruct version as [| | |cur| |]; try apply prefix_nil.
  rewrite check_entries_step trace_bind /=.
  destruct (completion (getNpmPackageInfo w name)); csimpl;
    try (apply prefix_cons, prefix_nil).
  apply prefix_cons, IH.
Qed.

Lemma check_entries_stops w es1 name v es2 acc :
  Forall (entry_checkable w) es1 → is_string (Some v) = false →
  check_entries w (es1 ++ (name, v) :: es2) acc =
  ((λ e, RegistryGet e.1) <$> es1, Rejected TypeError).
Proof.
  intros Hall Hv. revert acc.
  induction Hall as [|[name' version] es1 [Hstr [info Hinfo]] _ IH]; intros acc.
  { by destruct v. }
  destruct version as [| | |cur| |]; try done.
  rewrite -app_comm_cons check_entries_step Hinfo IH. by rewrite /bind.
Qed.

(** X8.  The comparator asks the registry once per name of the merged
    mapping, in its iteration order, and for no name twice: a package
    declared in both groups is looked up once.  The lookups of a call that
    does not return are a prefix of these; the lookups of one that returns
    are all of them, as many as [totalDependencies]. *)
Theorem one_lookup_per_dependency (w : World) (packageJson : JSON)
    (repoName : string) :
  NoDup (Object_keys (dependencies_of packageJson)) ∧
  registry_gets (trace (checkOutdatedPackages w packageJson repoName))
    `prefix_of` Object_keys (dependencies_of packageJson) ∧
  (∀ rep,
     completion (checkOutdatedPackages w packageJson repoName) = Resolved rep →
     registry_gets (trace (checkOutdatedPackages w packageJson repoName)) =
       Object_keys (dependencies_of packageJson) ∧
     length (registry_gets (trace (checkOutdatedPackages w packageJson repoName)))
       = totalDependencies rep).
Proof.
  split_and!.
  - apply own_property_order_NoDup, object_spread_NoDup.
  - rewrite /checkOutdatedPackages trace_bind.
    destruct (completion (check_entries _ _ _)); rewrite /= app_nil_r;
      apply check_entries_lookups.
  - intros rep. rewrite /checkOutdatedPackages completion_bind trace_bind.
    destruct (check_entries w _ []) as [t c] eqn:Hloop.
    destruct c as [out| | | |]; try done.
    apply check_entries_resolved in Hloop as (_ & _ & ->).
    rewrite /= app_nil_r registry_gets_lookups. intros [= <-].
    by rewrite /Object_keys /Object_entries.
Qed.

(** X9.  The comparator stops at the first entry of the merged mapping
    whose declared version is not a string: the call is rejected with a
    [TypeError], after the lookups for the entries before it and none for
    it or the entries after it. *)
Theorem non_string_version_rejects (w : World) (packageJson : JSON)
    (repoName name : string) (version : JSON) (before after : Props) :
  Object_entries (dependencies_of packageJson) =
    before ++ (name, version) :: after →
  Forall (entry_checkable w) before →
  is_string (Some version) = false →
  checkOutdatedPackages w packageJson repoName =
  ((λ e, RegistryGet e.1) <$> before, Rejected TypeError).
Proof.
  intros Hentries Hbefore Hversion.
  rewrite /checkOutdatedPackages Hentries.
  by rewrite (check_entries_stops _ _ _ _ _ _ Hbefore Hversion).
Qed.

Lemma non_string_version_witness :
  checkOutdatedPackages Example.outdated_world
    (JObj [("dependencies",
             JObj [("left-pad", JStr "^1.0.0");
                   ("local-tools", JObj [("path", JStr "../tools")]);
                   ("lodash", JStr "4.17.21")])])
    "acme/app" =
  ([RegistryGet "left-pad"], Rejected TypeError).
Proof.
  apply (non_string_version_rejects Example.outdated_world _ "acme/app"
           "local-tools" (JObj [("path", JStr "../tools")])
           [("left-pad", JStr "^1.0.0")] [("lodash", JStr "4.17.21")]).
  - reflexivity.
  - repeat constructor. by eexists.
  - reflexivity.
Defined.

(** ** What a run hands over *)

(** Nothing below [main] calls [process.exit], and nothing there is left
    pending unless a request is. *)

Lemma bind_below_main {A B} w (m : M A) (k : A → M B) :
  below_main w (completion m) → (∀ a, below_main w (completion (k a))) →
  below_main w (completion (bind m k)).
Proof.
  rewrite completion_bind. intros Hm Hk. by destruct (completion m).
Qed.

Lemma try_catch_below_main {A} w (m : M A) handler :
  below_main w (completion m) → (∀ e, below_main w (completion (handler e))) →
  below_main w (completion (try_catch m handler)).
Proof.
  rewrite completion_try_catch. intros Hm Hh. by destruct (completion m).
Qed.

Lemma below_main_settled {A} w (c : Completion A) :
  not_exited c → settled c → below_main w c.
Proof. by split. Qed.

Lemma getNpmPackageInfo_below_main w name :
  below_main w (completion (getNpmPackageInfo w name)).
Proof.
  rewrite /getNpmPackageInfo completion_bind /=.
  destruct (registry w name) as [| |s [pkg|]] eqn:Hanswer; try done.
  - split; [done|]. intros (_ & Hregistry & _). by apply (Hregistry name).
  - destruct (s =? 200); try done. by destruct (_ ≫= _).
  - by destruct (s =? 200).
Qed.

Lemma check_entries_below_main w es acc :
  below_main w (completion (check_entries w es acc)).
Proof.
  revert acc. induction es as [|[name version] es IH]; intros acc; [done|].
  destruct version as [| | |cur| |]; try done.
  rewrite check_entries_step completion_bind /=.
  pose proof (getNpmPackageInfo_below_main w name) as Hinfo.
  destruct (completion (getNpmPackageInfo w name)); first [done|apply IH].
Qed.

Lemma checkOutdatedPackages_below_main w packageJson repoName :
  below_main w (completion (checkOutdatedPackages w packageJson repoName)).
Proof.
  rewrite /checkOutdatedPackages.
  apply bind_below_main; [apply check_entries_below_main|done].
Qed.

Lemma getPackageJson_below_main gr w r token :
  (∀ path, below_main w (completion (gr w path token))) →
  below_main w (completion (getPackageJson gr w r token)).
Proof.
  intros Hgr. rewrite /getPackageJson.
  apply try_catch_below_main; [|done].
  apply bind_below_main; [apply Hgr|]. intros content.
  destruct (get_field _ _) as [c|]; [|done]. by destruct (decode_manifest w c).
Qed.

Lemma github_unanswered w path token :
  github w path token = Some NoAnswer → ¬ every_request_settles w.
Proof.
  rewrite /github. destruct (_ && _); [|done].
  intros [= Hhost] (Hgithub & _). by apply (Hgithub path token).
Qed.

Lemma basic_githubRequest_below_main w path token :
  below_main w (completion (Basic.githubRequest w path token)).
Proof.
  rewrite basic_githubRequest_eq.
  destruct (github w path token) as [[| |s [j|]]|] eqn:Hanswer; try done.
  - split; [done|]. by intros ?%(github_unanswered _ _ _ Hanswer).
  - by destruct (s =? 200).
  - by destruct (s =? 200).
Qed.

Lemma security_githubRequest_below_main w path token :
  below_main w (completion (Security.githubRequest w path token)).
Proof.
  rewrite security_githubRequest_eq.
  destruct (github w path token) as [[| |s [j|]]|] eqn:Hanswer; try done.
  - split; [done|]. by intros ?%(github_unanswered _ _ _ Hanswer).
  - destruct (s =? 200); try done; by destruct (s =? 404).
  - destruct (s =? 200); try done; by destruct (s =? 404).
Qed.

Lemma getSecurityAlerts_below_main w r token :
  below_main w (completion (Security.getSecurityAlerts w r token)).
Proof.
  rewrite getSecurityAlerts_unfold.
  apply try_catch_below_main; [|done].
  apply bind_below_main; [apply security_githubRequest_below_main|].
  intros alerts. destruct (negb (truthy alerts)); [done|].
  destruct alerts as [| | | |items|]; try done. by destruct (mapM _ _).
Qed.

Lemma security_check_repo_below_main w token r :
  below_main w (completion (Security.check_repo w token r)).
Proof.
  rewrite /Security.check_repo.
  apply bind_below_main; [done|]. intros _.
  apply bind_below_main.
  { apply getPackageJson_below_main. intros path.
    apply security_githubRequest_below_main. }
  intros packageJson. apply bind_below_main; [done|]. intros _.
  apply bind_below_main; [apply getSecurityAlerts_below_main|].
  intros alerts. apply bind_below_main; [done|]. intros _.
  destruct (truthy packageJson); [|done].
  apply bind_below_main; [apply checkOutdatedPackages_below_main|].
  intros o. by apply bind_below_main.
Qed.

Lemma security_loop_below_main w token rs acc :
  below_main w (completion (Security.for_each_repo w token rs acc)).
Proof.
  revert acc. induction rs as [|r rs IH]; intros acc; [done|].
  change (Security.for_each_repo w token (r :: rs) acc) with
    (let* entry := Security.check_repo w token r in
     Security.for_each_repo w token rs (acc ++ [entry])).
  apply bind_below_main; [apply security_check_repo_below_main|].
  intros entry. apply IH.
Qed.

Lemma basic_loop_below_main w token rs acc :
  below_main w (completion (Basic.for_each_repo w token rs acc)).
Proof.
  revert acc. induction rs as [|r rs IH]; intros acc; [done|].
  rewrite basic_loop_cons.
  apply bind_below_main; [done|]. intros _.
  apply bind_below_main.
  { apply getPackageJson_below_main. intros path.
    apply basic_githubRequest_below_main. }
  intros packageJson. destruct (truthy packageJson); [|apply IH].
  apply bind_below_main; [apply checkOutdatedPackages_below_main|].
  intros o. apply bind_below_main; [done|]. intros _. apply IH.
Qed.

(** The summarizer posts its prompt once, whatever the answer. *)

Lemma claude_response_cases w p apiKey :
  ∃ c, claude_response w p apiKey = ([ClaudePost p], c) ∧ below_main w c.
Proof.
  rewrite /claude_response /emit /bind /=.
  destruct (anthropic w p apiKey) as [| |s [response|]] eqn:Hanswer;
    try (by eexists).
  - eexists. split; [done|]. split; [done|].
    intros (_ & _ & Hanthropic). by apply (Hanthropic p apiKey).
  - destruct (s =? 200); try (by eexists). destruct (_ ≫= _); by eexists.
  - destruct (s =? 200); by eexists.
Qed.

(** The two ways [main] ends, and [main] itself, as seen from outside. *)

Lemma sendMail_discipline w m :
  one_mail_discipline w (sendMail w m) ∧ prompts (trace (sendMail w m)) = [].
Proof.
  rewrite sendMail_eq /one_mail_discipline /=.
  destruct (relay_accepts w m) eqn:Hm; split_and!; simpl; try lia; try done.
  - split; [|done]. intros _. by exists m.
  - split; [done|]. intros (mail & [= <-] & ?). congruence.
Qed.

Lemma failure_discipline w (t : list Event) (c : Completion unit) :
  mails t = [] → length (prompts t) ≤ 1 →
  match c with Resolved _ => False | Exited n => n = 1 | _ => True end →
  (every_request_settles w → settled c) →
  one_mail_discipline w (t, c).
Proof.
  intros Hmails Hprompts Hc Hsettled.
  rewrite /one_mail_discipline /= Hmails /=. split_and!; try done; try lia.
  - split; [by intros ->|]. by intros (mail & [=] & _).
  - by intros n ->.
Qed.

Ltac ends_in_failure :=
  rewrite /emit /bind /=; apply failure_discipline;
  [done|simpl; lia|done|first [done|tauto]].

Lemma discipline_after {A} w (pre : list Event) (a : A) (k : A → M unit) :
  mails pre = [] →
  length (prompts pre) + length (prompts (trace (k a))) ≤ 1 →
  one_mail_discipline w (k a) →
  one_mail_discipline w (bind (pre, Resolved a) k).
Proof.
  intros Hmails Hprompts. destruct (k a) as [t c] eqn:Hk.
  rewrite /one_mail_discipline /bind /= Hk /= mails_app prompts_app Hmails.
  simpl in Hprompts. intros (? & ? & ? & ? & ?).
  split_and!; try done. rewrite length_app. lia.
Qed.

Lemma discipline_before w (m : M unit) (post : list Event) :
  mails post = [] → prompts post = [] →
  one_mail_discipline w m →
  one_mail_discipline w (m;;; (post, Resolved tt)).
Proof.
  intros Hmails Hprompts. destruct m as [t [[]|e|e|n|]];
    rewrite /one_mail_discipline /bind /= ?mails_app ?prompts_app
      ?Hmails ?Hprompts ?app_nil_r //.
Qed.

Lemma prompts_before (m : M unit) (post : list Event) :
  prompts post = [] → prompts (trace (m;;; (post, Resolved tt))) = prompts (trace m).
Proof.
  intros Hpost. destruct m as [t [[]|e|e|n|]];
    rewrite /bind /= ?prompts_app ?Hpost ?app_nil_r //.
Qed.

Lemma top_level_discipline w (m : M unit) :
  one_mail_discipline w m → one_mail_discipline w (top_level m).
Proof.
  rewrite /one_mail_discipline top_level_mails top_level_prompts
    top_level_completion.
  destruct (completion m); try done.
  intros (? & ? & [_ Hmail] & _ & _). split_and!; try done.
  - split; [done|]. by intros ?%Hmail.
  - by intros n [= <-].
Qed.

Lemma security_all_clean_discipline w :
  one_mail_discipline w (Security.all_clean w).
Proof.
  rewrite /Security.all_clean.
  destruct (sendMail_discipline w (Security.all_clean_mail w)) as [Hd Hp].
  apply (discipline_after w [Log AllUpToDate]); [done| |done].
  rewrite Hp /=. lia.
Qed.

Lemma basic_all_clean_discipline w : one_mail_discipline w (Basic.all_clean w).
Proof.
  rewrite /Basic.all_clean.
  destruct (sendMail_discipline w (Basic.all_clean_mail w)) as [Hd Hp].
  apply (discipline_after w [Log AllUpToDate]); [done| |done].
  rewrite Hp /=. lia.
Qed.

Lemma security_sendEmail_cases w analysis results :
  (∃ text, analysis = Some (JStr text) ∧
     Security.all_severities_strings results = true ∧
     Security.sendEmail w analysis results (GMAIL_USER w) (GMAIL_APP_PASSWORD w)
       (RECIPIENT_EMAIL w) =
     sendMail w (Security.mailOptions (GMAIL_USER w) (RECIPIENT_EMAIL w) text
                   results)) ∨
  ((is_string analysis = false ∨
    Security.all_severities_strings results = false) ∧
   Security.sendEmail w analysis results (GMAIL_USER w) (GMAIL_APP_PASSWORD w)
     (RECIPIENT_EMAIL w) = ([], Rejected TypeError)).
Proof.
  rewrite /Security.sendEmail.
  destruct analysis as [[| | |text| |]|]; try (right; split; [by left|done]).
  destruct (Security.all_severities_strings results).
  - left. by exists text.
  - right. split; [by right|done].
Qed.

Lemma notify_discipline w (send : M unit) :
  one_mail_discipline w send → prompts (trace send) = [] →
  one_mail_discipline w
    (emit (Log SendingReport);;; send;;; emit (Log Done)) ∧
  prompts (trace (emit (Log SendingReport);;; send;;; emit (Log Done))) = [].
Proof.
  intros Hsend Hprompts.
  assert (Hp : prompts (trace (send;;; emit (Log Done))) = []).
  { by rewrite prompts_before. }
  split.
  - apply (discipline_after w [Log SendingReport]); [done|rewrite Hp /=; lia|].
    by apply discipline_before.
  - by rewrite trace_bind prompts_app Hp.
Qed.

Lemma analysis_discipline w (p : Prompt) (c : Completion Value)
    (notify : Value → M unit) :
  below_main w c →
  (∀ analysis, one_mail_discipline w (notify analysis) ∧
               prompts (trace (notify analysis)) = []) →
  one_mail_discipline w
    (emit (Log Analyzing);;; let* analysis := ([ClaudePost p], c) in
     notify analysis).
Proof.
  intros [Hexit Hsettled] Hnotify.
  destruct c as [analysis|e|e|n|]; try ends_in_failure.
  destruct (Hnotify analysis) as [Hd Hp].
  apply (discipline_after w [Log Analyzing]).
  - done.
  - rewrite trace_bind /= Hp /=. lia.
  - apply (discipline_after w [ClaudePost p]); [done|rewrite Hp /=; lia|done].
Qed.

Lemma security_needs_analysis_discipline w results :
  one_mail_discipline w (Security.needs_analysis w results).
Proof.
  rewrite /Security.needs_analysis /Security.analyzeWithClaude.
  destruct (Security.all_severities_strings results) eqn:Hsev.
  2: { ends_in_failure. }
  destruct (claude_response_cases w (SecurityPrompt results)
              (ANTHROPIC_API_KEY w)) as (c & -> & Hc).
  apply analysis_discipline; [done|]. intros analysis.
  apply notify_discipline.
  - destruct (security_sendEmail_cases w analysis results)
      as [(text & _ & _ & ->)|[_ ->]].
    + apply sendMail_discipline.
    + ends_in_failure.
  - destruct (security_sendEmail_cases w analysis results)
      as [(text & _ & _ & ->)|[_ ->]]; [|done].
    apply sendMail_discipline.
Qed.

Lemma basic_needs_analysis_discipline w results :
  one_mail_discipline w (Basic.needs_analysis w results).
Proof.
  rewrite /Basic.needs_analysis /Basic.analyzeWithClaude.
  destruct (claude_response_cases w (OutdatedPrompt results)
              (ANTHROPIC_API_KEY w)) as (c & -> & Hc).
  apply analysis_discipline; [done|]. intros analysis.
  apply notify_discipline; apply sendMail_discipline.
Qed.

Lemma discipline_after_fetch w (pre : list Event) (m : M unit) :
  Forall fetch_event pre → one_mail_discipline w m →
  one_mail_discipline w (bind (pre, Resolved tt) (λ _, m)).
Proof.
  intros [Hmails Hprompts]%fetch_events_quiet Hm.
  apply discipline_after; [done| |done].
  rewrite Hprompts /=. apply Hm.
Qed.

Lemma loop_failure_discipline {R} w (t : list Event) (c : Completion R)
    (k : R → M unit) :
  Forall fetch_event t → below_main w c →
  match c with Resolved _ => False | _ => True end →
  one_mail_discipline w
    (emit (Log CheckingEnvironment);;; emit (Log Starting);;; bind (t, c) k).
Proof.
  intros [Hmails Hprompts]%fetch_events_quiet [Hexit Hsettled] Hc.
  destruct c as [results|e|e|n|]; try done;
    rewrite /emit /bind /=; apply failure_discipline;
    rewrite /= ?Hmails ?Hprompts /=; first [done|lia].
Qed.

Lemma security_main_discipline w : one_mail_discipline w (Security.main w).
Proof.
  destruct (present (GH_TOKEN w)) eqn:Hpresent.
  2: { rewrite security_main_no_token //.
       apply failure_discipline; [done|simpl; lia|done|done]. }
  destruct (GH_TOKEN w) as [token|] eqn:Htoken; [|done].
  rewrite -Htoken in Hpresent.
  pose proof (security_loop_fetch w token (repos w) []) as Hfetch.
  pose proof (security_loop_below_main w token (repos w) []) as Hbelow.
  destruct (Security.for_each_repo w token (repos w) []) as [t c] eqn:Hloop.
  destruct c as [results|e|e|n|].
  { destruct (security_main_after_loop _ _ _ _ Htoken Hpresent Hloop)
      as [Hpre ->].
    apply discipline_after_fetch; [done|].
    destruct (_ && _);
      [apply security_all_clean_discipline
      |apply security_needs_analysis_discipline]. }
  all: rewrite /Security.main; rewrite Htoken in Hpresent |- *;
    rewrite Hpresent Hloop; by apply loop_failure_discipline.
Qed.

Lemma basic_main_discipline w : one_mail_discipline w (Basic.main w).
Proof.
  destruct (present (GH_TOKEN w)) eqn:Hpresent.
  2: { rewrite /Basic.main. destruct (GH_TOKEN w); rewrite ?Hpresent;
       ends_in_failure. }
  destruct (GH_TOKEN w) as [token|] eqn:Htoken; [|done].
  rewrite -Htoken in Hpresent.
  pose proof (basic_loop_fetch w token (repos w) []) as Hfetch.
  pose proof (basic_loop_below_main w token (repos w) []) as Hbelow.
  destruct (Basic.for_each_repo w token (repos w) []) as [t c] eqn:Hloop.
  destruct c as [results|e|e|n|].
  { destruct (basic_main_after_loop _ _ _ _ Htoken Hpresent Hloop) as [Hpre ->].
    apply discipline_after_fetch; [done|].
    destruct (_ =? _);
      [apply basic_all_clean_discipline|apply basic_needs_analysis_discipline]. }
  all: rewrite /Basic.main; rewrite Htoken in Hpresent |- *;
    rewrite Hpresent Hloop; by apply loop_failure_discipline.
Qed.

Lemma discipline_seen w (m : M unit) :
  one_mail_discipline w m →
  length (mails (trace m)) ≤ 1 ∧
  length (prompts (trace m)) ≤ 1 ∧
  (completion m = Resolved tt ↔
   ∃ mail, mails (trace m) = [mail] ∧ relay_accepts w mail = true) ∧
  (every_request_settles w → settled (completion m)) ∧
  (settled (completion m) →
   exit_status (completion m) ≤ 1 ∧
   (exit_status (completion m) = 0 ↔
    ∃ mail, mails (trace m) = [mail] ∧ relay_accepts w mail = true)).
Proof.
  intros (Hmails & Hprompts & Hmail & Hexit & Hsettled).
  split_and!; try done. rewrite -Hmail.
  destruct (completion m) as [[]|e|e|n|]; simpl; intros Hs;
    try done; try (split; [lia|done]).
  rewrite (Hexit n eq_refl). split; [lia|done].
Qed.

(** X10.  A run of either revision hands at most one mail to the relay
    and posts at most one prompt: nothing is retried.  It ends
    successfully exactly when one mail was handed over and the relay
    accepted it.  It is left pending only by a request that never settles:
    a service that stays silent, a response cut before its end (the script
    sets no timeout).  A run that is not left pending ends the process
    with status 0 or 1, and with 0 exactly when one mail was handed over
    and accepted. *)
Theorem a_run_hands_over_at_most_one_mail (w : World) :
  (length (mails (trace (Security.run w))) ≤ 1 ∧
   length (prompts (trace (Security.run w))) ≤ 1 ∧
   (completion (Security.run w) = Resolved tt ↔
    ∃ mail, mails (trace (Security.run w)) = [mail] ∧
            relay_accepts w mail = true) ∧
   (every_request_settles w → settled (completion (Security.run w))) ∧
   (settled (completion (Security.run w)) →
    exit_status (completion (Security.run w)) ≤ 1 ∧
    (exit_status (completion (Security.run w)) = 0 ↔
     ∃ mail, mails (trace (Security.run w)) = [mail] ∧
             relay_accepts w mail = true))) ∧
  (length (mails (trace (Basic.run w))) ≤ 1 ∧
   length (prompts (trace (Basic.run w))) ≤ 1 ∧
   (completion (Basic.run w) = Resolved tt ↔
    ∃ mail, mails (trace (Basic.run w)) = [mail] ∧
            relay_accepts w mail = true) ∧
   (every_request_settles w → settled (completion (Basic.run w))) ∧
   (settled (completion (Basic.run w)) →
    exit_status (completion (Basic.run w)) ≤ 1 ∧
    (exit_status (completion (Basic.run w)) = 0 ↔
     ∃ mail, mails (trace (Basic.run w)) = [mail] ∧
             relay_accepts w mail = true))).
Proof.
  split.
  - apply discipline_seen, top_level_discipline, security_main_discipline.
  - apply discipline_seen, top_level_discipline, basic_main_discipline.
Qed.

Lemma a_run_witness :
  every_request_settles Example.outdated_world ∧
  settled (completion (Security.run Example.outdated_world)) ∧
  exit_status (completion (Security.run Example.outdated_world)) ≤ 1 ∧
  length (mails (trace (Security.run Example.silent_registry_world))) ≤ 1 ∧
  completion (Security.run Example.silent_registry_world) = Pending.
Proof.
  assert (Hsettles : every_request_settles Example.outdated_world).
  { split_and!.
    - intros path token. rewrite /= /Example.host /Example.not_found.
      by repeat case_match.
    - intros name. rewrite /= /Example.left_pad_registry /Example.not_found.
      by case_match.
    - done. }
  destruct (a_run_hands_over_at_most_one_mail Example.outdated_world)
    as [(_ & _ & _ & Hsettled & Hstatus) _].
  destruct (a_run_hands_over_at_most_one_mail Example.silent_registry_world)
    as [(Hmails & _) _].
  split_and!.
  - exact Hsettles.
  - exact (Hsettled Hsettles).
  - exact (proj1 (Hstatus (Hsettled Hsettles))).
  - exact Hmails.
  - reflexivity.
Defined.

(** ** Values the later revision cannot format *)

Lemma no_vulnerabilities_all_strings results :
  Security.totalVulnerabilities_of results = 0 →
  Security.all_severities_strings results = true.
Proof.
  rewrite /Security.totalVulnerabilities_of /Security.all_severities_strings.
  rewrite foldl_sum /=.
  induction results as [|r results IH]; csimpl; [done|].
  intros Hsum. destruct (securityAlerts r); [|simpl in Hsum; lia].
  apply IH. simpl in Hsum. lia.
Qed.

Lemma security_run_after_loop w token t results :
  GH_TOKEN w = Some token → present (GH_TOKEN w) = true →
  Security.for_each_repo w token (repos w) [] = (t, Resolved results) →
  (Security.totalVulnerabilities_of results =? 0) &&
    (Security.totalOutdated_of results =? 0) = false →
  Security.run w =
  top_level (bind (security_pre t results, Resolved tt)
               (λ _, Security.needs_analysis w results)).
Proof.
  intros Htoken Hpresent Hloop Hcond.
  destruct (security_main_after_loop _ _ _ _ Htoken Hpresent Hloop) as [_ Hmain].
  by rewrite /Security.run Hmain Hcond.
Qed.

(** X11.  In the later revision an alert whose [severity] is not a string
    stops the run once the loop has returned: building the prompt throws,
    so no prompt is posted and no mail is sent; the [TypeError] is printed
    and the process exits with status 1. *)
Theorem alert_without_severity_aborts (w : World) (token : string)
    (t : list Event) (results : list RepositoryReport) :
  GH_TOKEN w = Some token → present (GH_TOKEN w) = true →
  Security.for_each_repo w token (repos w) [] = (t, Resolved results) →
  Security.all_severities_strings results = false →
  Security.run w =
  (security_pre t results ++ [Log Analyzing; Log (FatalError TypeError)],
   Exited 1).
Proof.
  intros Htoken Hpresent Hloop Hsev.
  rewrite (security_run_after_loop _ _ _ _ Htoken Hpresent Hloop).
  { apply andb_false_iff. left. apply Nat.eqb_neq. intros Hnone.
    apply no_vulnerabilities_all_strings in Hnone. congruence. }
  assert (Security.needs_analysis w results =
          ([Log Analyzing], Rejected TypeError)) as ->.
  { by rewrite /Security.needs_analysis /Security.analyzeWithClaude Hsev. }
  by rewrite top_level_after.
Qed.

Lemma alert_without_severity_witness :
  ∃ t results,
    Security.run Example.unrated_world =
    (security_pre t results ++ [Log Analyzing; Log (FatalError TypeError)],
     Exited 1).
Proof.
  eexists _, _.
  by apply (alert_without_severity_aborts Example.unrated_world "ghp_example"
              _ _ eq_refl eq_refl eq_refl).
Defined.

(** X12.  In the later revision, when the summarizer resolves to something
    that is not a string (the first block of the answer has no [text]),
    the notifier throws before the relay is called: the prompt was posted,
    no mail is sent, the [TypeError] is printed and the process exits with
    status 1. *)
Theorem analysis_without_text_aborts (w : World) (token : string)
    (t : list Event) (results : list RepositoryReport) (analysis : Value) :
  GH_TOKEN w = Some token → present (GH_TOKEN w) = true →
  Security.for_each_repo w token (repos w) [] = (t, Resolved results) →
  (Security.totalVulnerabilities_of results =? 0) &&
    (Security.totalOutdated_of results =? 0) = false →
  completion (Security.analyzeWithClaude w results (ANTHROPIC_API_KEY w)) =
    Resolved analysis →
  is_string analysis = false →
  Security.run w =
  (security_pre t results ++
     [Log Analyzing; ClaudePost (SecurityPrompt results); Log SendingReport;
      Log (FatalError TypeError)],
   Exited 1).
Proof.
  intros Htoken Hpresent Hloop Hcond Hanalysis Hstring.
  rewrite (security_run_after_loop _ _ _ _ Htoken Hpresent Hloop Hcond).
  assert (Security.needs_analysis w results =
          ([Log Analyzing; ClaudePost (SecurityPrompt results);
            Log SendingReport], Rejected TypeError)) as ->.
  { rewrite /Security.needs_analysis. move: Hanalysis.
    rewrite /Security.analyzeWithClaude.
    destruct (Security.all_severities_strings results); [|done].
    destruct (claude_response_cases w (SecurityPrompt results)
                (ANTHROPIC_API_KEY w)) as (c & -> & _).
    intros [= ->].
    by destruct analysis as [[| | |text| |]|]. }
  by rewrite top_level_after.
Qed.

Lemma analysis_without_text_witness :
  ∃ t results,
    Security.run Example.tool_use_world =
    (security_pre t results ++
       [Log Analyzing; ClaudePost (SecurityPrompt results); Log SendingReport;
        Log (FatalError TypeError)],
     Exited 1).
Proof.
  eexists _, _.
  by apply (analysis_without_text_aborts Example.tool_use_world "ghp_example"
              _ _ undefined eq_refl eq_refl eq_refl).
Defined.

(** ** The subjects a run can send *)

Lemma Number_toString_digit n :
  ∃ c s, Number_toString n = String c s ∧ c ≠ "M"%char.
Proof.
  rewrite /Number_toString.
  destruct (Nat.to_uint n); simpl; by eexists _, _.
Qed.

Lemma security_mails_inv w m :
  m ∈ mails (trace (Security.run w)) →
  m = Security.all_clean_mail w ∨
  ∃ results text,
    (Security.totalVulnerabilities_of results =? 0) &&
      (Security.totalOutdated_of results =? 0) = false ∧
    m = Security.mailOptions (GMAIL_USER w) (RECIPIENT_EMAIL w) text results.
Proof.
  rewrite /Security.run top_level_mails.
  destruct (present (GH_TOKEN w)) eqn:Hpresent.
  2: { rewrite security_main_no_token //. by intros ?%elem_of_nil. }
  destruct (GH_TOKEN w) as [token|] eqn:Htoken; [|done].
  rewrite -Htoken in Hpresent.
  rewrite (security_main_trace _ _ Htoken Hpresent) !mails_app /=.
  pose proof (security_loop_fetch w token (repos w) []) as Hfetch.
  destruct (fetch_events_quiet _ Hfetch) as [-> _].
  destruct (completion (Security.for_each_repo w token (repos w) []))
    as [results|e|e|n|]; try by intros ?%elem_of_nil.
  rewrite /=. destruct (_ && _) eqn:Hcond.
  - rewrite security_all_clean_eq. intros ->%list_elem_of_singleton. by left.
  - intros [text ->]%security_needs_analysis_mails. right. by exists results, text.
Qed.

(** X13.  Every mail of a run of the later revision carries one of four
    subjects: the all-clear, or one of the three subjects of [sendEmail]
    that hold a count, and the count is positive.  The fourth subject of
    [sendEmail], the one without a count, is never sent: [main] calls
    [sendEmail] only when there is an alert or an outdated package. *)
Theorem monthly_report_subject_is_never_sent (w : World) (m : Mail) :
  m ∈ mails (trace (Security.run w)) →
  (subject m = "✅ Dependency Check: All Secure & Up To Date" ∨
   ∃ n, 0 < n ∧
     (subject m = "🚨 SECURITY ALERT: " +:+ Number_toString n
                    +:+ " Critical Vulnerabilities" ∨
      subject m = "⚠️ Security Update: " +:+ Number_toString n
                    +:+ " Vulnerabilities Found" ∨
      subject m = "📦 " +:+ Number_toString n
                    +:+ " Package Updates Available")) ∧
  String.eqb (subject m) "📦 Monthly Dependency Report" = false.
Proof.
  intros [->|(results & text & Hcond & ->)]%security_mails_inv.
  { split; [by left|done]. }
  rewrite /Security.mailOptions /Security.subject_of /=.
  destruct (0 <? length _) eqn:Hcritical.
  { split; [|done]. right. eexists. split; [by apply Nat.ltb_lt|by left]. }
  destruct (0 <? Security.totalVulnerabilities_of _) eqn:Hvulnerable.
  { split; [|done]. right. eexists.
    split; [by apply Nat.ltb_lt|by right; left]. }
  destruct (0 <? Security.totalOutdated_of _) eqn:Houtdated.
  { split.
    - right. eexists. split; [by apply Nat.ltb_lt|by right; right].
    - apply String.eqb_neq.
      destruct (Number_toString_digit (Security.totalOutdated_of results))
        as (c & s & -> & Hc).
      simpl. intros [= ?]. done. }
  apply Nat.ltb_ge in Hvulnerable, Houtdated.
  apply andb_false_iff in Hcond as [Hc%Nat.eqb_neq|Hc%Nat.eqb_neq]; lia.
Qed.

Lemma monthly_report_subject_witness :
  String.eqb
    (subject (Security.mailOptions (Some "monitor@example.com")
                (Some "owner@example.com") "Update left-pad to 1.3.0."
                [Example.left_pad_report]))
    "📦 Monthly Dependency Report" = false.
Proof.
  apply (monthly_report_subject_is_never_sent Example.outdated_world).
  vm_compute. apply list_elem_of_here.
Defined.

(** ** The two counts of critical alerts *)

(** X14.  The number of critical alerts that [main] prints (it filters the
    flattened list of alerts) is the number that [sendEmail] puts in the
    subject (it flattens the filtered lists), and it is at most the total
    number of alerts. *)
Theorem critical_counts_agree (results : list RepositoryReport) :
  length (List.filter Security.is_critical_or_high
            (flat_map securityAlerts results)) =
    length (Security.criticalSecurityIssues_of results) ∧
  length (Security.criticalSecurityIssues_of results) ≤
    Security.totalVulnerabilities_of results.
Proof.
  rewrite /Security.criticalSecurityIssues_of /Security.totalVulnerabilities_of.
  rewrite foldl_sum /=.
  induction results as [|r results [IHeq IHle]]; csimpl; [done|].
  rewrite List.filter_app !length_app IHeq. split; [done|].
  pose proof (List.filter_length_le Security.is_critical_or_high
                (securityAlerts r)). lia.
Qed.

(** ** A host that answers nothing with 200 *)









(** ** The requests of the loop *)

Lemma github_gets_app t1 t2 : github_gets (t1 ++ t2) = github_gets t1 ++ github_gets t2.
Proof. apply omap_app. Qed.

Lemma check_entries_github_gets w es acc :
  github_gets (trace (check_entries w es acc)) = [].
Proof.
  revert acc. induction es as [|[name version] es IH]; intros acc; [done|].
  destruct version as [| | |cur| |]; try done.
  rewrite check_entries_step trace_bind /=.
  destruct (completion (getNpmPackageInfo w name)); csimpl;
    first [done|apply IH].
Qed.

Lemma checkOutdatedPackages_github_gets w packageJson repoName :
  github_gets (trace (checkOutdatedPackages w packageJson repoName)) = [].
Proof.
  rewrite /checkOutdatedPackages trace_bind github_gets_app.
  rewrite check_entries_github_gets. by destruct (completion _).
Qed.

Lemma github_gets_request l : github_gets (GitHubGet <$> l) = l.
Proof. induction l as [|path l IH]; csimpl; by rewrite ?IH. Qed.

Lemma basic_githubRequest_trace w path token :
  trace (Basic.githubRequest w path token) = GitHubGet <$> sent w token path.
Proof.
  rewrite basic_githubRequest_eq /sent. by destruct (github w path token).
Qed.

Lemma security_githubRequest_trace w path token :
  trace (Security.githubRequest w path token) = GitHubGet <$> sent w token path.
Proof.
  rewrite security_githubRequest_eq /sent. by destruct (github w path token).
Qed.

Lemma getPackageJson_github_gets gr w r token :
  (∀ path, trace (gr w path token) = GitHubGet <$> sent w token path) →
  github_gets (trace (getPackageJson gr w r token)) =
  sent w token (package_json_path r).
Proof.
  intros Hgr. rewrite /getPackageJson trace_try_catch trace_bind Hgr.
  rewrite completion_bind !github_gets_app github_gets_request.
  destruct (completion (gr w _ token)) as [content|e|e|n|];
    rewrite /= ?app_nil_r //.
  destruct content as [| | | | |o]; rewrite /= ?app_nil_r //;
    destruct (decode_manifest w _); by rewrite /= ?app_nil_r.
Qed.

Lemma security_check_repo_github_gets w token r rep :
  completion (Security.check_repo w token r) = Resolved rep →
  github_gets (trace (Security.check_repo w token r)) =
  sent w token (package_json_path r) ++ sent w token (alerts_path r).
Proof.
  rewrite /Security.check_repo !completion_bind !trace_bind /=.
  rewrite github_gets_app getPackageJson_github_gets.
  { intros path. apply security_githubRequest_trace. }
  destruct (completion (getPackageJson _ _ _ _)) as [packageJson| | | |]; try done.
  rewrite !completion_bind !trace_bind /= github_gets_app.
  rewrite getSecurityAlerts_github_gets.
  destruct (completion (Security.getSecurityAlerts _ _ _)) as [alerts| | | |];
    try done.
  rewrite !completion_bind !trace_bind /=.
  destruct (truthy packageJson); [|by rewrite app_nil_r].
  rewrite trace_bind github_gets_app checkOutdatedPackages_github_gets.
  rewrite completion_bind.
  destruct (completion (checkOutdatedPackages _ _ _)); by rewrite /= app_nil_r.
Qed.

Lemma basic_loop_resolved w token rs acc t results :
  Basic.for_each_repo w token rs acc = (t, Resolved results) →
  github_gets t = flat_map (λ r, sent w token (package_json_path r)) rs ∧
  ∃ reports, results = acc ++ reports ∧
    repo <$> reports = List.filter (has_manifest w token) rs.
Proof.
  revert acc t. induction rs as [|r rs IH]; intros acc t.
  { intros [= <- <-]. split; [done|]. exists []. by rewrite app_nil_r. }
  rewrite basic_loop_cons.
  intros (t0 & [] & t' & [= <-] & Hturn & ->)%bind_resolved.
  apply bind_resolved in Hturn as (t1 & packageJson & t2 & Hmanifest & Hrest & ->).
  assert (Hgets : github_gets t1 = sent w token (package_json_path r)).
  { pose proof (getPackageJson_github_gets Basic.githubRequest w r token) as Hg.
    rewrite Hmanifest in Hg. apply Hg.
    intros path. apply basic_githubRequest_trace. }
  rewrite /= /has_manifest Hmanifest /= !github_gets_app Hgets.
  destruct (truthy packageJson).
  - apply bind_resolved in Hrest as (t3 & o & t4 & Hcheck & Hrest & ->).
    apply bind_resolved in Hrest as (t5 & [] & t6 & [= <-] & Hrest & ->).
    pose proof (checkOutdatedPackages_github_gets w packageJson r) as Hnone.
    rewrite Hcheck in Hnone. simpl in Hnone.
    apply checkOutdatedPackages_resolved in Hcheck as [-> _].
    apply IH in Hrest as (Hrest & reports & -> & Hrepos).
    rewrite !github_gets_app Hnone Hrest. split; [done|].
    eexists (_ :: reports). split; [by rewrite -app_assoc|].
    by rewrite fmap_cons Hrepos.
  - apply IH in Hrest as (Hrest & reports & -> & Hrepos).
    rewrite Hrest. split; [done|]. by exists reports.
Qed.

(** X16.  A loop that returns has gone, for every configured repository
    in order, through the request for its manifest and (in the later
    revision) then the request for its open alerts, and has sent no other
    request to this host.  Each of these requests was sent once, unless
    the call of [https.get] throws on it, as it does when the path or the
    token holds a character that a request may not hold (a repository
    name with a space): such a request is not sent at all. *)
Theorem requests_to_the_repository_host (w : World) (token : string)
    (rs : list string) :
  (∀ path,
     sent w token path =
     if request_path_ok path && header_value_ok ("token " +:+ token)
     then [path] else []) ∧
  (∀ acc t results,
     Security.for_each_repo w token rs acc = (t, Resolved results) →
     github_gets t =
     flat_map (λ r, sent w token (package_json_path r) ++
                    sent w token (alerts_path r)) rs) ∧
  (∀ acc t results,
     Basic.for_each_repo w token rs acc = (t, Resolved results) →
     github_gets t = flat_map (λ r, sent w token (package_json_path r)) rs).
Proof.
  split_and!.
  - intros path. rewrite /sent /github. by destruct (_ && _).
  - induction rs as [|r rs IH]; intros acc t results.
    { by intros [= <- <-]. }
    change (Security.for_each_repo w token (r :: rs) acc) with
      (let* entry := Security.check_repo w token r in
       Security.for_each_repo w token rs (acc ++ [entry])).
    intros (t1 & entry & t2 & Hentry & Hrest & ->)%bind_resolved.
    pose proof (security_check_repo_github_gets w token r entry) as Hgets.
    rewrite Hentry in Hgets.
    rewrite github_gets_app Hgets // (IH _ _ _ Hrest) //.
  - intros acc t results Hloop.
    by apply basic_loop_resolved in Hloop as [-> _].
Qed.

Lemma requests_witness :
  github_gets
    (trace (Security.for_each_repo Example.spaced_name_world "ghp_example"
              ["acme/app"; "acme/my app"] [])) =
  ["/repos/acme/app/contents/package.json";
   "/repos/acme/app/dependabot/alerts?state=open&per_page=100"] ∧
  github_gets
    (trace (Basic.for_each_repo Example.spaced_name_world "ghp_example"
              ["acme/app"; "acme/my app"] [])) =
  ["/repos/acme/app/contents/package.json"].
Proof.
  destruct (requests_to_the_repository_host Example.spaced_name_world
              "ghp_example" ["acme/app"; "acme/my app"])
    as (_ & Hlater & Hearlier).
  split.
  - exact (Hlater [] _ _ eq_refl).
  - exact (Hearlier [] _ _ eq_refl).
Defined.

(** X17.  When the loop of the earlier revision returns, its results are
    the reports of the repositories for which [getPackageJson] resolved
    to a manifest, in the configured order; the others have none. *)
Theorem earlier_revision_reports_fetched_manifests (w : World)
    (token : string) (t : list Event) (results : list OutdatedReport) :
  Basic.for_each_repo w token (repos w) [] = (t, Resolved results) →
  repo <$> results = List.filter (has_manifest w token) (repos w).
Proof.
  by intros (_ & reports & -> & Hrepos)%basic_loop_resolved.
Qed.

Lemma earlier_revision_reports_witness :
  repo <$> [] = List.filter (has_manifest Example.no_manifest_world "ghp_example")
                  (repos Example.no_manifest_world) ∧
  repo <$> [report Example.left_pad_report] =
    List.filter (has_manifest Example.outdated_world "ghp_example")
      (repos Example.outdated_world).
Proof.
  split.
  - apply (earlier_revision_reports_fetched_manifests Example.no_manifest_world
             "ghp_example" _ [] eq_refl).
  - apply (earlier_revision_reports_fetched_manifests Example.outdated_world
             "ghp_example" _ [report Example.left_pad_report] eq_refl).
Defined.

(** ** An answer of the completion endpoint that cannot be read *)

Lemma claude_response_unreadable w p apiKey data :
  anthropic w p apiKey = Response 200 data →
  match data with
  | Some response => first_text response = None
  | None => True
  end →
  ∃ e, claude_response w p apiKey = ([ClaudePost p], Uncaught e).
Proof.
  rewrite /claude_response /first_text. intros -> Hdata.
  destruct data as [response|]; rewrite /emit /bind /=; [|by eexists].
  rewrite Hdata. by eexists.
Qed.

(** X18.  When the summarizer's request was made and the completion
    endpoint answered it with status 200 and a body that is not JSON, or
    in which [content[0].text] cannot be read (no [content], or no block
    in it), the exception is thrown in the response handler, where no
    promise is rejected: the top-level handler does not run, the script
    prints nothing after the request, no mail is sent, and the process
    ends with status 1. *)
Theorem summarizer_throws_on_unreadable_answer (w : World) (p : Prompt)
    (data : option JSON) :
  ClaudePost p ∈ trace (Security.run w) →
  anthropic w p (ANTHROPIC_API_KEY w) = Response 200 data →
  match data with
  | Some response => first_text response = None
  | None => True
  end →
  (∃ e, completion (Security.run w) = Uncaught e) ∧
  exit_status (completion (Security.run w)) = 1 ∧
  mails (trace (Security.run w)) = [] ∧
  last (trace (Security.run w)) = Some (ClaudePost p).
Proof.
  intros Hposted Hresponse Hdata.
  apply prompts_elem_of in Hposted as Hp.
  apply security_prompts_inv in Hp
    as (token & t & results & Htoken & Hpresent & Hloop & Hmain & ->).
  destruct (security_main_after_loop _ _ _ _ Htoken Hpresent Hloop) as [Hpre _].
  destruct (fetch_events_quiet _ Hpre) as [Hmails _].
  assert (Hsev : Security.all_severities_strings results = true).
  { apply prompts_elem_of in Hposted. move: Hposted.
    rewrite /Security.run top_level_prompts Hmain trace_bind prompts_app.
    rewrite (proj2 (fetch_events_quiet _ Hpre)) /=.
    by intros [? _]%security_needs_analysis_prompts. }
  destruct (claude_response_unreadable _ _ _ _ Hresponse Hdata) as [e He].
  assert (Hbranch : Security.needs_analysis w results =
    ([Log Analyzing; ClaudePost (SecurityPrompt results)], Uncaught e)).
  { by rewrite /Security.needs_analysis /Security.analyzeWithClaude Hsev He. }
  rewrite /Security.run Hmain Hbranch top_level_after /trace /completion.
  cbn [fst snd]. split_and!; try done.
  - by exists e.
  - by rewrite mails_app Hmails.
  - by rewrite last_app.
Qed.

Lemma summarizer_throws_witness :
  (∃ e, completion (Security.run Example.empty_content_world) = Uncaught e) ∧
  exit_status (completion (Security.run Example.empty_content_world)) = 1 ∧
  mails (trace (Security.run Example.empty_content_world)) = [] ∧
  last (trace (Security.run Example.empty_content_world)) =
    Some (ClaudePost (SecurityPrompt [Example.left_pad_report])).
Proof.
  apply (summarizer_throws_on_unreadable_answer Example.empty_content_world
           (SecurityPrompt [Example.left_pad_report])
           (Some (JObj [("content", JArr []); ("stop_reason", JStr "end_turn")]))).
  - vm_compute. do 11 apply list_elem_of_further. apply list_elem_of_here.
  - reflexivity.
  - reflexivity.
Defined.
